(** * Peer-to-peer messaging core: DataChannel and PeerChannel

    A shallow embedding of [src/main/generic/network/DataChannel.js] and of
    the receive path of [PeerChannel] ([_onMessage], [reject], [close]).

    Conventions.
    - JavaScript numbers that hold sizes, tags, timestamps and message types
      are [Z]; the remainder operator [%] is [Z.rem].
    - An [ArrayBuffer], and a [Uint8Array] that is only read front to
      back, is a [list byte]. The argument of [send] is a [Uint8Array] whose
      [buffer] and [byteLength] the source reads separately, so it is a
      view ([Uint8Array] below): a window into its [ArrayBuffer].
    - The mutable object [this] is an explicit record that every method
      takes and returns; what a method fires, sends or logs is returned as a
      list of [Event]s in the order the source produces them.
    - [Map] is a [gmap]; the [Timers] dictionary is a [gmap] keyed by the
      string the source builds ([chunk-<id>], [msg-<id>]). *)

From Stdlib Require Import ZArith List Lia.
From Stdlib.Strings Require Import Byte.
From stdpp Require Import base gmap strings list fin_maps pretty.
From Equations Require Import Equations.
Import ListNotations.

Open Scope Z_scope.

(** ** Bytes *)

(** [buffer.readUint8()]: the byte as a number in [0, 255]. *)
Definition readUint8 (b : byte) : Z := Z.of_N (Byte.to_N b).

(** [buffer.writeUint8(v)]: the low eight bits of [v]. *)
Definition writeUint8 (v : Z) : byte :=
  match Byte.of_N (Z.to_N (v mod 256)) with
  | Some b => b
  | None => Byte.x00
  end.

(** [byteLength] of an array of bytes. *)
Definition byteLength (l : list byte) : Z := Z.of_nat (length l).

(** A [Uint8Array] as a view: the window [bytes] of an [ArrayBuffer] that
    holds [before] in front of it and [after] behind it. *)
Record Uint8Array := mkUint8Array {
  before : list byte;
  bytes : list byte;
  after : list byte
}.

(** [msg.buffer]: the whole underlying [ArrayBuffer]. *)
Definition buffer (msg : Uint8Array) : list byte :=
  before msg ++ bytes msg ++ after msg.

(** [msg.byteOffset]: where the window starts within [msg.buffer]. *)
Definition byteOffset (msg : Uint8Array) : Z := byteLength (before msg).

(** [new Uint8Array(l)]: an array that spans a buffer of its own. *)
Definition spanning (l : list byte) : Uint8Array := mkUint8Array [] l [].

(** [buffer.readUint32()] on four bytes, big-endian. *)
Definition readUint32 (b0 b1 b2 b3 : byte) : Z :=
  Z.lor (Z.shiftl (readUint8 b0) 24)
    (Z.lor (Z.shiftl (readUint8 b1) 16)
       (Z.lor (Z.shiftl (readUint8 b2) 8) (readUint8 b3))).

Module NumberUtils.
(** Modelled from the spec: [NumberUtils] is not among the sources; the
    spec gives "the source uses UINT8_MAX, i.e. 255". *)
Definition UINT8_MAX : Z := 255.
End NumberUtils.

(** ** Frame header *)

(** The protocol's magic constant is not given by the sources; it is a
    parameter of the development. *)
Class Protocol := { MAGIC : Z }.

Module Message.
Section WithProtocol.
Context `{Protocol}.

(** Modelled from the spec: [Message.peekLength] is not among the
    sources. The frame is
    [magic (4 B) ‖ type (1 B) ‖ length (4 B, big-endian) ‖ checksum ‖ payload];
    [peekLength] "reads length without advancing the caller cursor;
    fails with Malformed if magic mismatches". [None] is the thrown
    exception (also when the buffer is too short to hold the field). *)
Definition peekLength (buf : list byte) : option Z :=
  match buf with
  | m0 :: m1 :: m2 :: m3 :: _ :: l0 :: l1 :: l2 :: l3 :: _ =>
      if readUint32 m0 m1 m2 m3 =? MAGIC
      then Some (readUint32 l0 l1 l2 l3)
      else None
  | _ => None
  end.

(** Modelled from the spec: [Message.peekType] is not among the
    sources; "analogous" to [peekLength], it reads the one-byte type
    that follows the magic. *)
Definition peekType (buf : list byte) : option Z :=
  match buf with
  | m0 :: m1 :: m2 :: m3 :: ty :: _ =>
      if readUint32 m0 m1 m2 m3 =? MAGIC
      then Some (readUint8 ty)
      else None
  | _ => None
  end.
End WithProtocol.
End Message.

(** ** ExpectedMessage *)

(** [timeoutCallback] is a function supplied by the caller; the model keeps
    its identity and records each invocation as an event. *)
Record ExpectedMessage := mkExpectedMessage {
  id : string;
  types : list Z;
  timeoutCallback : nat;
  msgTimeout : Z;
  chunkTimeout : Z
}.

(** [types.join(':')]. *)
Fixpoint join (types : list Z) : string :=
  match types with
  | [] => ""%string
  | [t] => pretty t
  | t :: rest => (pretty t +:+ ":" +:+ join rest)%string
  end.

(** ** DataChannel *)

Module DataChannel.

Definition CHUNK_SIZE_MAX : Z := 1024 * 16.
Definition MESSAGE_SIZE_MAX : Z := 10 * 1024 * 1024.
Definition CHUNK_TIMEOUT : Z := 1000 * 5.
Definition MESSAGE_TIMEOUT : Z :=
  (MESSAGE_SIZE_MAX / CHUNK_SIZE_MAX) * CHUNK_TIMEOUT.

Inductive ReadyState := CONNECTING | OPEN | CLOSING | CLOSED.

(** [a === b] on ready states. *)
Definition ReadyState_eqb (a b : ReadyState) : bool :=
  match a, b with
  | CONNECTING, CONNECTING | OPEN, OPEN | CLOSING, CLOSING | CLOSED, CLOSED => true
  | _, _ => false
  end.

(** The constructor of [ExpectedMessage]. *)
Definition newExpectedMessage (tys : list Z) (cb : nat)
    (msgT chunkT : Z) : ExpectedMessage :=
  mkExpectedMessage (join tys) tys cb msgT chunkT.

(** The reassembly [SerialBuffer]: [new SerialBuffer(n)] has [byteLength]
    [n] and write position 0; [write] appends at the write position. The
    model keeps the capacity and the bytes written so far, so
    [writePos = length written]. *)
Record SerialBuffer := mkSerialBuffer {
  capacity : Z;
  written : list byte
}.

Definition writePos (b : SerialBuffer) : Z := byteLength (written b).

Definition write (b : SerialBuffer) (chunk : list byte) : SerialBuffer :=
  mkSerialBuffer (capacity b) (written b ++ chunk).

(** An armed timer: the expectation bound into [_onTimeout] and the
    delay. *)
Record Timer := mkTimer {
  boundTo : ExpectedMessage;
  delay : Z
}.

(** The texts handed to [_error]. *)
Inductive ErrorMsg :=
| ChunkTooLarge
    (* 'Received chunk larger than maximum chunk size, discarding' *)
| ExcessiveMessageSize (messageSize : Z)
    (* 'Received message with excessive message size ...' *)
| WrongMessageTag (tag expected : Z)
    (* 'Received message with wrong message tag ...' *)
| ChunkLargerThanRemaining
    (* 'Received chunk larger than remaining bytes to read, discarding' *)
| ParsingError.
    (* 'Error occurred while parsing incoming message: ...' *)

(** What a method makes observable, in order. *)
Inductive Event :=
| FireError (msg : ErrorMsg)            (* this.fire('error', msg, this) *)
| FireClose                             (* this.fire('close', this) *)
| FireMessage (msg : list byte)         (* this.fire('message', msg, this) *)
| FireChunk (buffer : SerialBuffer)     (* this.fire('chunk', this._buffer) *)
| SendChunk (buffer : list byte)        (* this.sendChunk(buffer) *)
| TimeoutCallback (cb : nat)            (* expectedMsg.timeoutCallback() *)
| LogError.                             (* Log.e(DataChannel, ...) *)

Record t := mk {
  _buffer : option SerialBuffer;
  _msgType : Z;
  _receivingTag : Z;
  _sendingTag : Z;
  _expectedMessagesByType : gmap Z ExpectedMessage;
  _timers : gmap string Timer;
  _lastChunkReceivedAt : Z;
  readyState : ReadyState
}.

Definition set_buffer (b : option SerialBuffer) (c : t) : t :=
  mk b (_msgType c) (_receivingTag c) (_sendingTag c)
     (_expectedMessagesByType c) (_timers c) (_lastChunkReceivedAt c)
     (readyState c).
Definition set_msgType (v : Z) (c : t) : t :=
  mk (_buffer c) v (_receivingTag c) (_sendingTag c)
     (_expectedMessagesByType c) (_timers c) (_lastChunkReceivedAt c)
     (readyState c).
Definition set_receivingTag (v : Z) (c : t) : t :=
  mk (_buffer c) (_msgType c) v (_sendingTag c)
     (_expectedMessagesByType c) (_timers c) (_lastChunkReceivedAt c)
     (readyState c).
Definition set_sendingTag (v : Z) (c : t) : t :=
  mk (_buffer c) (_msgType c) (_receivingTag c) v
     (_expectedMessagesByType c) (_timers c) (_lastChunkReceivedAt c)
     (readyState c).
Definition set_expected (m : gmap Z ExpectedMessage) (c : t) : t :=
  mk (_buffer c) (_msgType c) (_receivingTag c) (_sendingTag c)
     m (_timers c) (_lastChunkReceivedAt c) (readyState c).
Definition set_timers (tm : gmap string Timer) (c : t) : t :=
  mk (_buffer c) (_msgType c) (_receivingTag c) (_sendingTag c)
     (_expectedMessagesByType c) tm (_lastChunkReceivedAt c)
     (readyState c).
Definition set_lastChunkReceivedAt (v : Z) (c : t) : t :=
  mk (_buffer c) (_msgType c) (_receivingTag c) (_sendingTag c)
     (_expectedMessagesByType c) (_timers c) v (readyState c).
Definition set_readyState (r : ReadyState) (c : t) : t :=
  mk (_buffer c) (_msgType c) (_receivingTag c) (_sendingTag c)
     (_expectedMessagesByType c) (_timers c) (_lastChunkReceivedAt c) r.

(** The constructor, on a transport that is open. *)
Definition new : t :=
  mk None 0 (-1) 0 ∅ ∅ 0 OPEN.

(** *** Timers *)

Definition chunkKey (e : ExpectedMessage) : string :=
  ("chunk-" +:+ id e)%string.
Definition msgKey (e : ExpectedMessage) : string :=
  ("msg-" +:+ id e)%string.

(** Modelled from the spec: [Timers] is not among the sources; "a
    [Timers] helper wraps arm/cancel/clear-all" over single-shot timers
    keyed by a string. *)
Definition clearTimeout (key : string) (tm : gmap string Timer)
    : gmap string Timer :=
  delete key tm.

(** Modelled from the spec: [Timers.resetTimeout(key, fn, delay)] cancels
    the timer under [key], if any, and arms a new one. *)
Definition resetTimeout (key : string) (e : ExpectedMessage) (d : Z)
    (tm : gmap string Timer) : gmap string Timer :=
  <[key := mkTimer e d]> (clearTimeout key tm).

(** Modelled from the spec: [Timers.clearAll()] cancels every timer. *)
Definition clearAll (tm : gmap string Timer) : gmap string Timer := ∅.

(** [for (const type of types) this._expectedMessagesByType.delete(type)] *)
Definition deleteAll (tys : list Z) (m : gmap Z ExpectedMessage)
    : gmap Z ExpectedMessage :=
  fold_left (fun acc ty => delete ty acc) tys m.

(** [for (const type of types) this._expectedMessagesByType.set(type, e)] *)
Definition setAll (tys : list Z) (e : ExpectedMessage)
    (m : gmap Z ExpectedMessage) : gmap Z ExpectedMessage :=
  fold_left (fun acc ty => <[ty := e]> acc) tys m.

(** [types] of [expectMessage]: one type or an array of types. *)
Inductive TypesArg :=
| OneType (ty : Z)
| TypeArray (tys : list Z).

(** [isExpectingMessage(type)] *)
Definition isExpectingMessage (type : Z) (c : t) : bool :=
  bool_decide (is_Some (_expectedMessagesByType c !! type)).

(** [confirmExpectedMessage(type, success)]; [type] is [None] when the
    caller passes [null], for which the map has no key. *)
Definition confirmExpectedMessage (type : option Z) (success : bool) (c : t)
    : t * list Event :=
  match type ≫= (fun ty => _expectedMessagesByType c !! ty) with
  | None => (c, [])
  | Some expectedMsg =>
      let c := set_timers (clearTimeout (chunkKey expectedMsg) (_timers c)) c in
      let c := set_timers (clearTimeout (msgKey expectedMsg) (_timers c)) c in
      let c := set_expected
                 (deleteAll (types expectedMsg) (_expectedMessagesByType c)) c in
      if negb success
      then (c, [TimeoutCallback (timeoutCallback expectedMsg)])
      else (c, [])
  end.

(** [expectMessage(types, timeoutCallback, msgTimeout, chunkTimeout)]; an
    omitted timeout is [None] and takes the default. *)
Definition expectMessage (tys : TypesArg) (cb : nat)
    (msgT chunkT : option Z) (c : t) : t :=
  let msgTimeout := default MESSAGE_TIMEOUT msgT in
  let chunkTimeout := default CHUNK_TIMEOUT chunkT in
  let types := match tys with OneType ty => [ty] | TypeArray l => l end in
  if (length types =? 0)%nat then c
  else
    let expectedMsg := newExpectedMessage types cb msgTimeout chunkTimeout in
    let c := set_expected (setAll types expectedMsg (_expectedMessagesByType c)) c in
    let c := set_timers
               (resetTimeout (chunkKey expectedMsg) expectedMsg chunkTimeout
                  (_timers c)) c in
    set_timers
      (resetTimeout (msgKey expectedMsg) expectedMsg msgTimeout (_timers c)) c.

(** [_onClose()]; detaching the listeners ([_offAll]) has no counterpart in
    the model. *)
Definition _onClose (c : t) : t * list Event :=
  (set_timers (clearAll (_timers c)) c, [FireClose]).

(** Modelled from the spec: [close()] is abstract in [DataChannel]; an
    adapter's [close] "must trigger [onClose]", and the channel goes "through
    CLOSING to CLOSED at most once". *)
Definition close (c : t) : t * list Event :=
  match readyState c with
  | CONNECTING | OPEN => _onClose (set_readyState CLOSED c)
  | CLOSING | CLOSED => (c, [])
  end.

(** [_error(msg)] *)
Definition _error (msg : ErrorMsg) (c : t) : t * list Event :=
  let '(c, evs) := close c in
  (c, FireError msg :: LogError :: evs).

(** How a block of [_onMessage] ends: it falls through, it returns, or it
    throws into the enclosing [catch]. *)
Inductive Completion :=
| Normal (c : t)
| Return (r : t * list Event)
| Throw (c : t).

Section Receive.
Context `{Protocol}.

(** [_onMessage], lines 137-150: "Detect if this is a new message." *)
Definition detectNewMessage (tag : Z) (chunk : list byte) (c : t)
    : Completion :=
  if bool_decide (_buffer c = None)
     && (tag =? Z.rem (_receivingTag c + 1) NumberUtils.UINT8_MAX)
  then
    match Message.peekLength chunk with
    | None => Throw c
    | Some messageSize =>
        if messageSize >? MESSAGE_SIZE_MAX
        then Return (_error (ExcessiveMessageSize messageSize) c)
        else
          let c := set_buffer (Some (mkSerialBuffer messageSize [])) c in
          let c := set_receivingTag tag c in
          match Message.peekType chunk with
          | None => Throw c
          | Some ty => Normal (set_msgType ty c)
          end
    end
  else Normal c.

(** [_onMessage], lines 152-189; [now] is [Date.now()]. *)
Definition writeChunk (now tag : Z) (chunk : list byte) (c : t)
    : t * list Event :=
  match _buffer c with
  | None => (c, [LogError])
  | Some buf =>
      if negb (tag =? _receivingTag c)
      then _error (WrongMessageTag tag (_receivingTag c)) c
      else
        let effectiveChunkLength := byteLength chunk in
        let remainingBytes := capacity buf - writePos buf in
        if effectiveChunkLength >? remainingBytes
        then _error ChunkLargerThanRemaining c
        else
          let buf := write buf chunk in
          let c := set_buffer (Some buf) c in
          let remainingBytes := remainingBytes - effectiveChunkLength in
          let c := set_lastChunkReceivedAt now c in
          let expectedMsg := _expectedMessagesByType c !! _msgType c in
          if remainingBytes =? 0
          then (set_buffer None c, [FireMessage (written buf)])
          else
            let c :=
              match expectedMsg with
              | Some e =>
                  set_timers
                    (resetTimeout (chunkKey e) e (chunkTimeout e) (_timers c)) c
              | None => c
              end in
            (c, [FireChunk buf])
  end.

(** [_onMessage(msg)]. Listeners are taken not to throw synchronously into
    [fire]; the exceptions that reach the [catch] are those of
    [Message.peekLength] and [Message.peekType]. *)
Definition _onMessage (now : Z) (msg : list byte) (c : t) : t * list Event :=
  if negb (ReadyState_eqb (readyState c) OPEN) then (c, [])
  else if byteLength msg =? 0 then (c, [])
  else if byteLength msg >? CHUNK_SIZE_MAX then _error ChunkTooLarge c
  else
    match msg with
    | [] => (c, [])
    | t :: chunk =>
        let tag := readUint8 t in
        match detectNewMessage tag chunk c with
        | Return r => r
        | Throw c => _error ParsingError c
        | Normal c => writeChunk now tag chunk c
        end
    end.

(** The transport delivers the frames of [msgs] one after the other; the
    events of all deliveries, in order. [now] is the same for all. *)
Fixpoint receive (now : Z) (msgs : list (list byte)) (c : t)
    : t * list Event :=
  match msgs with
  | [] => (c, [])
  | m :: rest =>
      let '(c, evs) := _onMessage now m c in
      let '(c, evs') := receive now rest c in
      (c, evs ++ evs')
  end.

End Receive.

(** [_onTimeout(expectedMsg)] *)
Definition _onTimeout (expectedMsg : option ExpectedMessage) (c : t)
    : t * list Event :=
  let '(c, evs) :=
    match expectedMsg with
    | Some e =>
        let c := set_timers (clearTimeout (chunkKey e) (_timers c)) c in
        let c := set_timers (clearTimeout (msgKey e) (_timers c)) c in
        let c := set_expected (deleteAll (types e) (_expectedMessagesByType c)) c in
        (c, [TimeoutCallback (timeoutCallback e)])
    | None => (c, [])
    end in
  (set_buffer None c, evs ++ [LogError]).

(** The timer armed under [key] expires: the host runs the function bound
    at [resetTimeout], which is [_onTimeout] on the bound expectation. *)
Definition timerExpires (key : string) (c : t) : t * list Event :=
  match _timers c !! key with
  | Some tm => _onTimeout (Some (boundTo tm)) c
  | None => (c, [])
  end.

(** [new Uint8Array(buf, offset, length)]: [length] bytes of the
    [ArrayBuffer] [buf] from position [offset] on. *)
Definition slice (buf : list byte) (offset len : Z) : list byte :=
  take (Z.to_nat len) (drop (Z.to_nat offset) buf).

(** The size of the next chunk's payload in [_sendChunked]. *)
Definition payloadSize (remaining : Z) : Z :=
  if remaining + 1 >=? CHUNK_SIZE_MAX then CHUNK_SIZE_MAX - 1 else remaining.

#[local] Obligation Tactic :=
  intros; unfold payloadSize, CHUNK_SIZE_MAX;
  repeat match goal with |- context [?a >=? ?b] => destruct (Z.geb_spec a b) end;
  lia.

(** The loop of [_sendChunked]: the buffers handed to [sendChunk], in
    order. Each chunk is cut from [msg.buffer] at the position
    [msg.byteLength - remaining], counted from the start of the buffer:
    [msg.byteOffset] is not added. The requested range lies within the
    buffer, so the chunk has the requested [byteLength] and [remaining]
    decreases by [payloadSize remaining]. *)
Equations sendChunkedLoop (msg : Uint8Array) (tag : Z) (remaining : Z)
    : list (list byte) by wf (Z.to_nat remaining) lt :=
  sendChunkedLoop msg tag remaining with Z_gt_dec remaining 0 := {
    | right _ => []
    | left _ =>
        let chunk :=
          slice (buffer msg) (byteLength (bytes msg) - remaining)
            (payloadSize remaining) in
        (writeUint8 tag :: chunk)
          :: sendChunkedLoop msg tag (remaining - payloadSize remaining)
  }.

(** [_sendChunked(msg, tag)] *)
Definition _sendChunked (msg : Uint8Array) (tag : Z) : list (list byte) :=
  sendChunkedLoop msg tag (byteLength (bytes msg)).

(** [send(msg)]; [None] is the failed [Assert.that]. *)
Definition send (msg : Uint8Array) (c : t) : option (t * list (list byte)) :=
  if byteLength (bytes msg) <=? MESSAGE_SIZE_MAX then
    let tag := _sendingTag c in
    let c := set_sendingTag (Z.rem (_sendingTag c + 1) NumberUtils.UINT8_MAX) c in
    Some (c, _sendChunked msg tag)
  else None.

(** Successive [send] calls on one channel: every buffer handed to
    [sendChunk], paired with the position of its message in [msgs]. A call
    whose assertion fails emits nothing and leaves the channel as it was. *)
Fixpoint sendAll (i : nat) (msgs : list Uint8Array) (c : t)
    : list (nat * list byte) :=
  match msgs with
  | [] => []
  | m :: rest =>
      match send m c with
      | Some (c', chunks) => map (pair i) chunks ++ sendAll (S i) rest c'
      | None => sendAll (S i) rest c
      end
  end.

(** The ['message'] events and the ['error'] events within a trace. *)
Definition messagesFired (evs : list Event) : list (list byte) :=
  omap (fun e => match e with FireMessage m => Some m | _ => None end) evs.
Definition errorsFired (evs : list Event) : list ErrorMsg :=
  omap (fun e => match e with FireError m => Some m | _ => None end) evs.
Definition callbacksInvoked (evs : list Event) : list nat :=
  omap (fun e => match e with TimeoutCallback cb => Some cb | _ => None end) evs.

(** The tag a chunk carries: its first byte. *)
Definition tagOf (chunk : list byte) : Z :=
  match chunk with
  | [] => 0
  | t :: _ => readUint8 t
  end.

End DataChannel.

(** ** PeerChannel *)

(** What a call that can throw gives back. *)
Inductive Result (A : Type) :=
| Ok (a : A)
| Throws (e : string).
Arguments Ok {A} a.
Arguments Throws {A} e.

(** [MessageFactory] and the message classes are not among the sources;
    the receive path of [PeerChannel] is modelled over any implementation of
    them. [REJECT] is [Message.Type.REJECT]; [parse] may give back a falsy
    value ([None]), which [_onMessage] tests for. *)
Class MessageFactory := {
  ParsedMessage : Type;
  messageType : ParsedMessage -> Z;
  REJECT : Z;
  factoryPeekType : list byte -> Result Z;
  factoryParse : list byte -> Result (option ParsedMessage)
}.

Module PeerChannel.

(** Modelled from the spec: [CloseType] is not among the sources; "an
    enumeration of reason codes (at least: FAILED_TO_PARSE_MESSAGE_TYPE,
    generic close)". *)
Inductive CloseType :=
| FAILED_TO_PARSE_MESSAGE_TYPE
| GENERIC_CLOSE.

(** Modelled from the spec: [RejectMessage] is not among the sources; of
    its codes the receive path uses [REJECT_MALFORMED]. *)
Inductive RejectCode :=
| REJECT_MALFORMED
| REJECT_OTHER (code : Z).

(** Modelled from the spec: the message [reject] constructs and hands to
    [_send], "REJECT(originalType, REJECT_MALFORMED, err)". *)
Record RejectMessage := mkRejectMessage {
  rejectedType : Z;
  code : RejectCode;
  reason : string
}.

(** What the subscribers of an event do with a message: they all return
    (and their promises resolve), or one throws (or rejects). *)
Inductive Subscribers :=
| Completed
| Threw (e : string).

Section WithFactory.
Context `{MessageFactory}.

Inductive Event :=
| Conn (e : DataChannel.Event)
    (* an event of the underlying channel *)
| ConnClose (type : CloseType) (reason : string)
    (* this._conn.close(type, reason) *)
| SendReject (msg : RejectMessage)
    (* this._conn.send(new RejectMessage(...).serialize()) *)
| Fire (type : Z) (msg : ParsedMessage)
    (* this.fire(PeerChannel.Event[msg.type], msg, this) *)
| FireMessageLog (msg : ParsedMessage) (elapsedMs byteLength : Z)
    (* this.fire('message-log', msg, this, Date.now() - start, rawMsg.byteLength) *)
| LogD
| LogW.

(** Modelled from the spec: [NetworkConnection] is not among the sources;
    [PeerChannel] is a "typed facade over a DataChannel", and [_conn] is that
    channel. *)
Record t := mk { _conn : DataChannel.t }.

(** [close(type, reason)] *)
Definition close (type : CloseType) (reason : string) (p : t)
    : t * list Event :=
  let '(c, evs) := DataChannel.close (_conn p) in
  (mk c, ConnClose type reason :: map Conn evs).

(** [reject(messageType, code, reason)] *)
Definition reject (messageType : Z) (code : RejectCode) (reason : string)
    (p : t) : t * list Event :=
  (p, [SendReject (mkRejectMessage messageType code reason)]).

(** The [try] block of [_onMessage], lines 23-27: either both calls return,
    or the [catch] sees the exception together with [type] as it was then
    ([null] when [peekType] threw). *)
Inductive TryParse :=
| Parsed (type : Z) (msg : option ParsedMessage)
| Caught (type : option Z) (e : string).

Definition tryParse (rawMsg : list byte) : TryParse :=
  match factoryPeekType rawMsg with
  | Throws e => Caught None e
  | Ok type =>
      match factoryParse rawMsg with
      | Throws e => Caught (Some type) e
      | Ok msg => Parsed type msg
      end
  end.

(** [_onMessage(rawMsg)]; [start] and [finish] are the two readings of
    [Date.now()], [subscribers] says how the listeners of the message's
    event behave. *)
Definition _onMessage (start finish : Z)
    (subscribers : ParsedMessage -> Subscribers)
    (rawMsg : list byte) (p : t) : t * list Event :=
  match tryParse rawMsg with
  | Caught type e =>
      let '(c, evs) := DataChannel.confirmExpectedMessage type false (_conn p) in
      let p := mk c in
      let evs := LogD :: map Conn evs in
      let '(p, evs') :=
        match type with
        | None =>
            close FAILED_TO_PARSE_MESSAGE_TYPE "Failed to parse message type" p
        | Some ty =>
            if ty =? REJECT
            then close FAILED_TO_PARSE_MESSAGE_TYPE "Failed to parse message type" p
            else reject ty REJECT_MALFORMED e p
        end in
      (p, evs ++ evs')
  | Parsed type None => (p, [])
  | Parsed type (Some msg) =>
      let '(c, evs) := DataChannel.confirmExpectedMessage (Some type) true (_conn p) in
      let p := mk c in
      let evs := map Conn evs in
      match subscribers msg with
      | Completed =>
          (p, evs ++ [Fire (messageType msg) msg;
                      FireMessageLog msg (finish - start) (byteLength rawMsg)])
      | Threw e =>
          (p, evs ++ [Fire (messageType msg) msg; LogW])
      end
  end.

(** The [REJECT] messages sent, the [close] calls made and the
    [message-log] events fired within a trace. *)
Definition rejectsSent (evs : list Event) : list RejectMessage :=
  omap (fun e => match e with SendReject m => Some m | _ => None end) evs.
Definition closeCalls (evs : list Event) : list (CloseType * string) :=
  omap (fun e => match e with ConnClose ty r => Some (ty, r) | _ => None end) evs.
Definition messageLogs (evs : list Event) : list (ParsedMessage * Z * Z) :=
  omap (fun e => match e with
                 | FireMessageLog m el bl => Some (m, el, bl)
                 | _ => None
                 end) evs.
Definition dispatched (evs : list Event) : list (Z * ParsedMessage) :=
  omap (fun e => match e with Fire ty m => Some (ty, m) | _ => None end) evs.

End WithFactory.
End PeerChannel.

(** ** Getters *)

Module Getters.

(** [get lastMessageReceivedAt()] of [DataChannel]. *)
Definition lastMessageReceivedAt (c : DataChannel.t) : Z :=
  DataChannel._lastChunkReceivedAt c.

(** [get lastMessageReceivedAt()] of [PeerChannel]. *)
Definition peerLastMessageReceivedAt (p : PeerChannel.t) : Z :=
  lastMessageReceivedAt (PeerChannel._conn p).

End Getters.

(** ** A channel in use *)

Module Session.
Import DataChannel.

(** What happens to a channel over its life: the transport delivers a
    frame ([_onMessage]), the owner calls [send], [expectMessage],
    [confirmExpectedMessage] or [close], or an armed timer expires. *)
Inductive Op :=
| Deliver (now : Z) (frame : list byte)
| Send (msg : Uint8Array)
| Expect (tys : TypesArg) (cb : nat) (msgT chunkT : option Z)
| Confirm (type : option Z) (success : bool)
| Expire (key : string)
| Close.

Section WithProtocol.
Context `{Protocol}.

(** One operation on the channel. A [send] whose assertion fails throws
    before it changes anything. *)
Definition step (op : Op) (c : DataChannel.t) : DataChannel.t * list Event :=
  match op with
  | Deliver now frame => _onMessage now frame c
  | Send msg =>
      match send msg c with
      | Some (c', chunks) => (c', map SendChunk chunks)
      | None => (c, [])
      end
  | Expect tys cb msgT chunkT => (expectMessage tys cb msgT chunkT c, [])
  | Confirm type success => confirmExpectedMessage type success c
  | Expire key => timerExpires key c
  | Close => close c
  end.

(** Operations one after the other, with all they make observable. *)
Fixpoint run (ops : list Op) (c : DataChannel.t) : DataChannel.t * list Event :=
  match ops with
  | [] => (c, [])
  | op :: rest =>
      let '(c, evs) := step op c in
      let '(c, evs') := run rest c in
      (c, evs ++ evs')
  end.

End WithProtocol.
End Session.

(** ** PeerChannel on its connection *)

Module PeerWiring.
Import PeerChannel.

(** [expectMessage(types, timeoutCallback, msgTimeout, chunkTimeout)] of
    [PeerChannel]. *)
Definition expectMessage (tys : DataChannel.TypesArg) (cb : nat)
    (msgT chunkT : option Z) (p : PeerChannel.t) : PeerChannel.t :=
  mk (DataChannel.expectMessage tys cb msgT chunkT (_conn p)).

(** [isExpectingMessage(type)] of [PeerChannel]. *)
Definition isExpectingMessage (type : Z) (p : PeerChannel.t) : bool :=
  DataChannel.isExpectingMessage type (_conn p).

Section WithFactory.
Context `{Protocol} `{MessageFactory}.

(** The listener the constructor registers,
    [this._conn.on('message', msg => this._onMessage(msg))], run for the
    events of one [_onMessage] of the connection. The connection fires
    ['message'] as its last action, so the listener sees the connection as
    [_onMessage] leaves it. The other events are passed on as they are. *)
Fixpoint listen (start finish : Z)
    (subscribers : ParsedMessage -> Subscribers)
    (evs : list DataChannel.Event) (p : PeerChannel.t)
    : PeerChannel.t * list Event :=
  match evs with
  | [] => (p, [])
  | DataChannel.FireMessage m :: rest =>
      let '(p, evs1) := _onMessage start finish subscribers m p in
      let '(p, evs2) := listen start finish subscribers rest p in
      (p, Conn (DataChannel.FireMessage m) :: evs1 ++ evs2)
  | e :: rest =>
      let '(p, evs2) := listen start finish subscribers rest p in
      (p, Conn e :: evs2)
  end.

(** The transport delivers one frame to the connection of a
    [PeerChannel]. *)
Definition onFrame (now start finish : Z)
    (subscribers : ParsedMessage -> Subscribers)
    (frame : list byte) (p : PeerChannel.t) : PeerChannel.t * list Event :=
  let '(c, evs) := DataChannel._onMessage now frame (_conn p) in
  listen start finish subscribers evs (mk c).

(** The transport delivers frames one after the other. *)
Fixpoint onFrames (now start finish : Z)
    (subscribers : ParsedMessage -> Subscribers)
    (frames : list (list byte)) (p : PeerChannel.t)
    : PeerChannel.t * list Event :=
  match frames with
  | [] => (p, [])
  | f :: rest =>
      let '(p, evs) := onFrame now start finish subscribers f p in
      let '(p, evs') := onFrames now start finish subscribers rest p in
      (p, evs ++ evs')
  end.

End WithFactory.
End PeerWiring.

(** ** The event table of PeerChannel *)

Module MessageType.

(** The members of [Message.Type] that [PeerChannel.Event] is defined on, by
    name; their numbers are not among the sources. *)
Inductive t :=
| VERSION | INV | GET_DATA | GET_HEADER | NOT_FOUND | GET_BLOCKS | BLOCK
| HEADER | TX | MEMPOOL | REJECT | SUBSCRIBE | ADDR | GET_ADDR | PING | PONG
| SIGNAL | GET_CHAIN_PROOF | CHAIN_PROOF | GET_ACCOUNTS_PROOF | ACCOUNTS_PROOF
| GET_ACCOUNTS_TREE_CHUNK | ACCOUNTS_TREE_CHUNK | GET_TRANSACTIONS_PROOF
| TRANSACTIONS_PROOF | GET_TRANSACTION_RECEIPTS | TRANSACTION_RECEIPTS
| GET_BLOCK_PROOF | BLOCK_PROOF | GET_HEAD | HEAD | VERACK.

(** The assignments [PeerChannel.Event[Message.Type.X] = '...'], in the
    order they are made. *)
Definition Event : list (t * string) :=
  [ (VERSION, "version"); (INV, "inv"); (GET_DATA, "get-data");
    (GET_HEADER, "get-header"); (NOT_FOUND, "not-found");
    (GET_BLOCKS, "get-blocks"); (BLOCK, "block"); (HEADER, "header");
    (TX, "tx"); (MEMPOOL, "mempool"); (REJECT, "reject");
    (SUBSCRIBE, "subscribe"); (ADDR, "addr"); (GET_ADDR, "get-addr");
    (PING, "ping"); (PONG, "pong"); (SIGNAL, "signal");
    (GET_CHAIN_PROOF, "get-chain-proof"); (CHAIN_PROOF, "chain-proof");
    (GET_ACCOUNTS_PROOF, "get-accounts-proof");
    (ACCOUNTS_PROOF, "accounts-proof");
    (GET_ACCOUNTS_TREE_CHUNK, "get-accounts-tree-chunk");
    (ACCOUNTS_TREE_CHUNK, "accounts-tree-chunk");
    (GET_TRANSACTIONS_PROOF, "get-transactions-proof");
    (TRANSACTIONS_PROOF, "transactions-proof");
    (GET_TRANSACTION_RECEIPTS, "get-transaction-receipts");
    (TRANSACTION_RECEIPTS, "transaction-receipts");
    (GET_BLOCK_PROOF, "get-block-proof"); (BLOCK_PROOF, "block-proof");
    (GET_HEAD, "get-head"); (HEAD, "head"); (VERACK, "verack") ]%string.

(** Equality of members, by their position in the declaration. *)
Definition index (ty : t) : nat :=
  match ty with
  | VERSION => 0 | INV => 1 | GET_DATA => 2 | GET_HEADER => 3 | NOT_FOUND => 4
  | GET_BLOCKS => 5 | BLOCK => 6 | HEADER => 7 | TX => 8 | MEMPOOL => 9
  | REJECT => 10 | SUBSCRIBE => 11 | ADDR => 12 | GET_ADDR => 13 | PING => 14
  | PONG => 15 | SIGNAL => 16 | GET_CHAIN_PROOF => 17 | CHAIN_PROOF => 18
  | GET_ACCOUNTS_PROOF => 19 | ACCOUNTS_PROOF => 20
  | GET_ACCOUNTS_TREE_CHUNK => 21 | ACCOUNTS_TREE_CHUNK => 22
  | GET_TRANSACTIONS_PROOF => 23 | TRANSACTIONS_PROOF => 24
  | GET_TRANSACTION_RECEIPTS => 25 | TRANSACTION_RECEIPTS => 26
  | GET_BLOCK_PROOF => 27 | BLOCK_PROOF => 28 | GET_HEAD => 29 | HEAD => 30
  | VERACK => 31
  end%nat.

(** [PeerChannel.Event[ty]]: the name last assigned to [ty], [None] for
    [undefined]. *)
Definition eventOf (ty : t) : option string :=
  snd <$> last (filter (fun entry => index (fst entry) = index ty) Event).

End MessageType.

(** ** Instances used to run the model on concrete inputs *)

(** A magic constant to evaluate the receive path with. *)
Definition exampleProtocol : Protocol := {| MAGIC := 0x42042042 |}.

(** The thirteen header bytes of a frame of type [ty] that declares
    [len] bytes, under [exampleProtocol], with a zero checksum. *)
Definition exampleHeader (ty len : Z) : list byte :=
  [x42; x04; x20; x42; writeUint8 ty;
   writeUint8 (Z.shiftr len 24); writeUint8 (Z.shiftr len 16);
   writeUint8 (Z.shiftr len 8); writeUint8 len;
   x00; x00; x00; x00].

(** A message factory to evaluate [PeerChannel] with: the parsed message is
    its type and payload, [parse] throws when the declared length is not the
    frame's length, [REJECT] is 10. *)
Definition exampleFactory : MessageFactory := {|
  ParsedMessage := Z * list byte;
  messageType := fst;
  REJECT := 10;
  factoryPeekType := fun buf =>
    match @Message.peekType exampleProtocol buf with
    | Some ty => Ok ty
    | None => Throws "Malformed magic"
    end;
  factoryParse := fun buf =>
    match @Message.peekType exampleProtocol buf,
          @Message.peekLength exampleProtocol buf with
    | Some ty, Some len =>
        if len =? byteLength buf
        then Ok (Some (ty, drop 13 buf))
        else Throws "Malformed length"
    | _, _ => Throws "Malformed header"
    end
|}.

(** A message factory that also checks the checksum field, which it
    takes to be zero for every payload: [parse] throws when the four bytes
    after the length are not zero. *)
Definition checkingFactory : MessageFactory := {|
  ParsedMessage := Z * list byte;
  messageType := fst;
  REJECT := 10;
  factoryPeekType := @factoryPeekType exampleFactory;
  factoryParse := fun buf =>
    match take 4 (drop 9 buf) with
    | [x00; x00; x00; x00] => @factoryParse exampleFactory buf
    | _ => Throws "Malformed checksum"
    end
|}.

(** The message [exampleFactory] parses from
    [exampleHeader 6 15 ++ [x01; x02]]. *)
Definition exampleMessage : @ParsedMessage exampleFactory := (6, [x01; x02]).

(** * Properties *)

(** ** Sending *)

Module SendFacts.
Import DataChannel.

Lemma payloadSize_bounds r :
  0 < r -> 0 < payloadSize r <= r /\ payloadSize r <= CHUNK_SIZE_MAX - 1.
Proof.
  intros Hr. unfold payloadSize, CHUNK_SIZE_MAX.
  destruct (Z.geb_spec (r + 1) (1024 * 16)); lia.
Qed.

Lemma payloadSize_last r :
  0 < r -> r - payloadSize r = 0 \/ payloadSize r = CHUNK_SIZE_MAX - 1.
Proof.
  intros Hr. unfold payloadSize, CHUNK_SIZE_MAX.
  destruct (Z.geb_spec (r + 1) (1024 * 16)); lia.
Qed.

(** One turn of the [while] loop. *)
Lemma sendChunkedLoop_step msg tag r :
  0 < r ->
  sendChunkedLoop msg tag r =
    (writeUint8 tag
       :: slice (buffer msg) (byteLength (bytes msg) - r) (payloadSize r))
      :: sendChunkedLoop msg tag (r - payloadSize r).
Proof.
  intros Hr. rewrite sendChunkedLoop_equation_1.
  destruct (Z_gt_dec r 0); [reflexivity | lia].
Qed.

(** The loop's exit. *)
Lemma sendChunkedLoop_done msg tag r :
  r <= 0 -> sendChunkedLoop msg tag r = [].
Proof.
  intros Hr. rewrite sendChunkedLoop_equation_1.
  destruct (Z_gt_dec r 0); [lia | reflexivity].
Qed.

(** Induction on what remains to be sent. *)
Lemma remaining_ind (P : Z -> Prop) :
  (forall r, 0 <= r -> (forall r', 0 <= r' < r -> P r') -> P r) ->
  forall r, 0 <= r -> P r.
Proof.
  intros Hstep r Hr.
  apply (Z_lt_induction (fun r => 0 <= r -> P r)); [| exact Hr | exact Hr].
  intros n IH Hn. apply Hstep; [exact Hn |].
  intros r' Hr'. apply IH; lia.
Qed.

(** The number of turns is the ceiling of [r / (CHUNK_SIZE_MAX - 1)]. *)
Lemma sendChunkedLoop_count msg tag r :
  0 <= r ->
  (Z.of_nat (length (sendChunkedLoop msg tag r)) - 1) * (CHUNK_SIZE_MAX - 1) < r
  /\ r <= Z.of_nat (length (sendChunkedLoop msg tag r)) * (CHUNK_SIZE_MAX - 1).
Proof.
  revert r. apply (remaining_ind
    (fun r => (Z.of_nat (length (sendChunkedLoop msg tag r)) - 1)
                * (CHUNK_SIZE_MAX - 1) < r
              /\ r <= Z.of_nat (length (sendChunkedLoop msg tag r))
                        * (CHUNK_SIZE_MAX - 1))).
  intros r Hr IH.
  destruct (Z.eq_dec r 0) as [-> | Hne].
  - rewrite sendChunkedLoop_done by lia. simpl. unfold CHUNK_SIZE_MAX. lia.
  - rewrite sendChunkedLoop_step by lia.
    pose proof (payloadSize_bounds r ltac:(lia)) as Hb.
    destruct (IH (r - payloadSize r) ltac:(lia)) as [Hlo Hhi].
    rewrite length_cons, Nat2Z.inj_succ.
    destruct (payloadSize_last r ltac:(lia)) as [Hz | Hfull].
    + rewrite Hz in *. rewrite sendChunkedLoop_done in * by lia.
      simpl in *. lia.
    + rewrite Hfull in *. lia.
Qed.

Lemma readUint8_range b : 0 <= readUint8 b < 256.
Proof.
  unfold readUint8. pose proof (Byte.to_N_bounded b). lia.
Qed.

Lemma read_writeUint8 v : 0 <= v < 256 -> readUint8 (writeUint8 v) = v.
Proof.
  intros Hv. unfold readUint8, writeUint8.
  rewrite Z.mod_small by lia.
  destruct (Byte.of_N (Z.to_N v)) as [b |] eqn:E.
  - apply Byte.to_of_N in E. rewrite E. lia.
  - apply Byte.of_N_None_iff in E. lia.
Qed.

(** Every chunk of one message carries the message's tag. *)
Lemma sendChunkedLoop_tags msg tag r :
  0 <= tag < 256 ->
  Forall (fun chunk => tagOf chunk = tag) (sendChunkedLoop msg tag r).
Proof.
  intros Htag.
  assert (Hall : forall r, 0 <= r ->
            Forall (fun chunk => tagOf chunk = tag) (sendChunkedLoop msg tag r)).
  { apply (remaining_ind
      (fun r => Forall (fun chunk => tagOf chunk = tag)
                  (sendChunkedLoop msg tag r))).
    intros n Hn IH.
    destruct (Z.eq_dec n 0) as [-> | Hne].
    - rewrite sendChunkedLoop_done by lia. constructor.
    - rewrite sendChunkedLoop_step by lia.
      pose proof (payloadSize_bounds n ltac:(lia)).
      constructor; [simpl; apply read_writeUint8; exact Htag |].
      apply IH. lia. }
  destruct (Z_le_gt_dec r 0) as [Hle | Hgt].
  - rewrite sendChunkedLoop_done by lia. constructor.
  - apply Hall. lia.
Qed.

Lemma sendChunked_nonempty msg tag :
  bytes msg <> [] -> _sendChunked msg tag <> [].
Proof.
  intros Hne. unfold _sendChunked.
  rewrite sendChunkedLoop_step; [discriminate |].
  unfold byteLength. destruct (bytes msg); [congruence | simpl; lia].
Qed.

(** An array that starts two bytes into its buffer: the chunk holds the
    first three bytes of the buffer, not the three bytes of the array. *)
Example sendChunked_offset_view :
  _sendChunked (mkUint8Array [x0a; x0b] [x0c; x0d; x0e] [x0f]) 0
    = [[x00; x0a; x0b; x0c]].
Proof. vm_compute. reflexivity. Qed.

(** A message of 20000 bytes leaves as a full chunk and a short one. *)
Example sendChunked_sizes :
  map byteLength (_sendChunked (spanning (repeat x07 (Z.to_nat 20000))) 3)
    = [CHUNK_SIZE_MAX; 20000 - (CHUNK_SIZE_MAX - 1) + 1].
Proof. vm_compute. reflexivity. Qed.

Lemma send_some msg c :
  byteLength (bytes msg) <= MESSAGE_SIZE_MAX ->
  send msg c =
    Some (set_sendingTag (Z.rem (_sendingTag c + 1) NumberUtils.UINT8_MAX) c,
          _sendChunked msg (_sendingTag c)).
Proof.
  intros Hle. unfold send.
  destruct (Z.leb_spec (byteLength (bytes msg)) MESSAGE_SIZE_MAX);
    [reflexivity | lia].
Qed.

Lemma next_tag_mod s :
  -1 <= s -> Z.rem (s + 1) NumberUtils.UINT8_MAX = (s + 1) mod 255.
Proof.
  intros Hs. unfold NumberUtils.UINT8_MAX. apply Z.rem_mod_nonneg; lia.
Qed.

(** The chunks of successive sends are labelled with positions from [i]
    on. *)
Lemma sendAll_index msgs :
  forall i c k j ch, sendAll i msgs c !! k = Some (j, ch) -> (i <= j)%nat.
Proof.
  induction msgs as [| m rest IH]; intros i c k j ch Hk.
  { simpl in Hk. rewrite lookup_nil in Hk. discriminate. }
  simpl in Hk. destruct (send m c) as [[c' chunks] |].
  - change (map (pair i) chunks) with (pair i <$> chunks) in Hk.
    apply lookup_app_Some in Hk. destruct Hk as [Hk | [_ Hk]].
    + rewrite list_lookup_fmap in Hk.
      destruct (chunks !! k); simpl in Hk; [| discriminate].
      injection Hk as <- _. lia.
    + apply IH in Hk. lia.
  - apply IH in Hk. lia.
Qed.

(** The first chunk emitted carries the channel's current tag, unless a
    zero-length message was sent before the chunk's message. *)
Lemma sendAll_head msgs :
  forall i c j ch,
    0 <= _sendingTag c < 255 ->
    sendAll i msgs c !! 0%nat = Some (j, ch) ->
    (forall n m, (i <= n < j)%nat -> msgs !! (n - i)%nat = Some m ->
       bytes m <> []) ->
    tagOf ch = _sendingTag c.
Proof.
  induction msgs as [| m rest IH]; intros i c j ch Hs Hk Hbetween.
  { simpl in Hk. discriminate. }
  assert (Hrest : forall n m', (S i <= n < j)%nat ->
            rest !! (n - S i)%nat = Some m' -> bytes m' <> []).
  { intros n m' Hn Hm'. apply (Hbetween n m'); [lia |].
    replace (n - i)%nat with (S (n - S i)) by lia. exact Hm'. }
  simpl in Hk. unfold send in Hk.
  destruct (Z.leb_spec (byteLength (bytes m)) MESSAGE_SIZE_MAX) as [Hle | Hgt];
    [| exact (IH _ _ _ _ Hs Hk Hrest)].
  change (map (pair i) ?l) with (pair i <$> l) in Hk.
  destruct (_sendChunked m (_sendingTag c)) as [| first others] eqn:Hchunks.
  - (* no chunk: the message is empty *)
    simpl in Hk. pose proof (sendAll_index _ _ _ _ _ _ Hk) as Hidx.
    exfalso. apply (sendChunked_nonempty m (_sendingTag c)); [| exact Hchunks].
    apply (Hbetween i m); [lia |]. rewrite Nat.sub_diag. reflexivity.
  - simpl in Hk. injection Hk as <- <-.
    pose proof (sendChunkedLoop_tags m (_sendingTag c) (byteLength (bytes m))
                  ltac:(lia)) as Htags.
    fold (_sendChunked m (_sendingTag c)) in Htags. rewrite Hchunks in Htags.
    inversion Htags; assumption.
Qed.

(** Two neighbouring chunks of different messages carry successive tags,
    unless a zero-length message was sent between the two messages. *)
Lemma sendAll_neighbours msgs :
  forall i c k i1 c1 i2 c2,
    0 <= _sendingTag c < 255 ->
    sendAll i msgs c !! k = Some (i1, c1) ->
    sendAll i msgs c !! S k = Some (i2, c2) ->
    i1 <> i2 ->
    (forall n m, (i1 < n < i2)%nat -> msgs !! (n - i)%nat = Some m ->
       bytes m <> []) ->
    tagOf c2 = (tagOf c1 + 1) mod 255.
Proof.
  induction msgs as [| m rest IH]; intros i c k i1 c1 i2 c2 Hs H1 H2 Hdiff Hbetween.
  { simpl in H1. rewrite lookup_nil in H1. discriminate. }
  simpl in H1, H2. unfold send in H1, H2.
  destruct (Z.leb_spec (byteLength (bytes m)) MESSAGE_SIZE_MAX) as [Hle | Hgt].
  2: { pose proof (sendAll_index _ _ _ _ _ _ H1) as Hidx.
       apply (IH _ _ _ _ _ _ _ Hs H1 H2 Hdiff).
       intros n m' Hn Hm'. apply (Hbetween n m'); [lia |].
       replace (n - i)%nat with (S (n - S i)) by lia. exact Hm'. }
  set (c' := set_sendingTag _ c) in *.
  assert (Hs' : _sendingTag c' = (_sendingTag c + 1) mod 255)
    by (apply next_tag_mod; lia).
  assert (Hr' : 0 <= _sendingTag c' < 255)
    by (rewrite Hs'; apply Z.mod_pos_bound; lia).
  pose proof (sendChunkedLoop_tags m (_sendingTag c) (byteLength (bytes m))
                ltac:(lia)) as Htags.
  fold (_sendChunked m (_sendingTag c)) in Htags.
  set (chunks := _sendChunked m (_sendingTag c)) in *.
  change (map (pair i) chunks) with (pair i <$> chunks) in H1, H2.
  assert (Hin : forall k j ch, (pair i <$> chunks) !! k = Some (j, ch) ->
                  j = i /\ tagOf ch = _sendingTag c).
  { intros k' j ch Hk. rewrite list_lookup_fmap in Hk.
    destruct (chunks !! k') as [ch' |] eqn:E; simpl in Hk; [| discriminate].
    injection Hk as <- <-. split; [reflexivity |].
    rewrite Forall_lookup in Htags. exact (Htags k' ch' E). }
  destruct (lt_dec (S k) (length (pair i <$> chunks))) as [Hboth | Hnot].
  - rewrite lookup_app_l in H1 by lia. rewrite lookup_app_l in H2 by lia.
    destruct (Hin _ _ _ H1) as [-> _]. destruct (Hin _ _ _ H2) as [-> _].
    congruence.
  - destruct (lt_dec k (length (pair i <$> chunks))) as [Hlast | Hrestk].
    + rewrite lookup_app_l in H1 by lia.
      rewrite lookup_app_r in H2 by lia.
      replace (S k - length (pair i <$> chunks))%nat with 0%nat in H2 by lia.
      destruct (Hin _ _ _ H1) as [-> ->].
      rewrite (sendAll_head _ _ _ _ _ Hr' H2); [exact Hs' |].
      intros n m' Hn Hm'. apply (Hbetween n m'); [lia |].
      replace (n - i)%nat with (S (n - S i)) by lia. exact Hm'.
    + rewrite lookup_app_r in H1 by lia.
      rewrite lookup_app_r in H2 by lia.
      replace (S k - length (pair i <$> chunks))%nat
        with (S (k - length (pair i <$> chunks)))%nat in H2 by lia.
      pose proof (sendAll_index _ _ _ _ _ _ H1) as Hidx.
      apply (IH _ _ _ _ _ _ _ Hr' H1 H2 Hdiff).
      intros n m' Hn Hm'. apply (Hbetween n m'); [lia |].
      replace (n - i)%nat with (S (n - S i)) by lia. exact Hm'.
Qed.

(** C10. For every [msg] with [|msg| <= MESSAGE_SIZE_MAX], [send(msg)] hands
    to [sendChunk] exactly [ceil(|msg| / (CHUNK_SIZE_MAX - 1))] buffers (the
    number [k] with [(k-1)(CHUNK_SIZE_MAX-1) < |msg| <= k(CHUNK_SIZE_MAX-1)]);
    a zero-length message hands over none; in every case [_sendingTag]
    advances by one modulo 255. *)
Theorem send_chunk_count (msg : Uint8Array) (c : t) :
  byteLength (bytes msg) <= MESSAGE_SIZE_MAX ->
  0 <= _sendingTag c ->
  exists c' chunks,
    send msg c = Some (c', chunks)
    /\ (Z.of_nat (length chunks) - 1) * (CHUNK_SIZE_MAX - 1)
         < byteLength (bytes msg)
    /\ byteLength (bytes msg)
         <= Z.of_nat (length chunks) * (CHUNK_SIZE_MAX - 1)
    /\ (byteLength (bytes msg) = 0 -> chunks = [])
    /\ _sendingTag c' = (_sendingTag c + 1) mod 255.
Proof.
  intros Hle Hs. eexists _, _. split; [apply send_some; exact Hle |].
  unfold _sendChunked.
  destruct (sendChunkedLoop_count msg (_sendingTag c) (byteLength (bytes msg)))
    as [Hlo Hhi]; [unfold byteLength; lia |].
  repeat split; [exact Hlo | exact Hhi | |].
  - intros H0. rewrite H0. apply sendChunkedLoop_done. lia.
  - simpl. apply next_tag_mod. lia.
Qed.

Lemma send_chunk_count_witness :
  exists c' chunks,
    send (spanning [x01; x02; x03]) new = Some (c', chunks)
    /\ (Z.of_nat (length chunks) - 1) * (CHUNK_SIZE_MAX - 1)
         < byteLength [x01; x02; x03]
    /\ byteLength [x01; x02; x03]
         <= Z.of_nat (length chunks) * (CHUNK_SIZE_MAX - 1)
    /\ (byteLength [x01; x02; x03] = 0 -> chunks = [])
    /\ _sendingTag c' = (_sendingTag new + 1) mod 255.
Proof.
  apply (send_chunk_count (spanning [x01; x02; x03]) new).
  - unfold byteLength, MESSAGE_SIZE_MAX. simpl. lia.
  - simpl. lia.
Defined.

(** C5, as amended. Two neighbouring chunks emitted by one channel that
    belong to different messages, with no zero-length message sent between
    those two messages, carry tags [t] and [(t + 1) mod 255]; the first send
    after construction uses tag 0 for all its chunks; a send at tag 254
    leaves the channel at tag 0. *)
Theorem tag_monotonicity (msgs : list Uint8Array) (k i1 i2 : nat)
    (c1 c2 : list byte) :
  sendAll 0 msgs new !! k = Some (i1, c1) ->
  sendAll 0 msgs new !! S k = Some (i2, c2) ->
  i1 <> i2 ->
  (forall n m, (i1 < n < i2)%nat -> msgs !! n = Some m -> bytes m <> []) ->
  tagOf c2 = (tagOf c1 + 1) mod 255
  /\ (forall m, byteLength (bytes m) <= MESSAGE_SIZE_MAX ->
        exists c', send m new = Some (c', _sendChunked m 0)
                   /\ Forall (fun ch => tagOf ch = 0) (_sendChunked m 0))
  /\ (forall m c,
        byteLength (bytes m) <= MESSAGE_SIZE_MAX -> _sendingTag c = 254 ->
        exists c' chunks, send m c = Some (c', chunks) /\ _sendingTag c' = 0).
Proof.
  intros H1 H2 Hdiff Hbetween. split; [| split].
  - apply (sendAll_neighbours msgs 0%nat new k i1 c1 i2 c2);
      [simpl; lia | exact H1 | exact H2 | exact Hdiff |].
    intros n m Hn Hm. rewrite Nat.sub_0_r in Hm. exact (Hbetween n m Hn Hm).
  - intros m Hle. eexists. split; [apply send_some; exact Hle |].
    apply sendChunkedLoop_tags. lia.
  - intros m c Hle H254. eexists _, _. split; [apply send_some; exact Hle |].
    simpl. rewrite H254. reflexivity.
Qed.

Lemma tag_monotonicity_witness :
  tagOf [x01; x02; x03] = (tagOf [x00; x01] + 1) mod 255
  /\ (forall m, byteLength (bytes m) <= MESSAGE_SIZE_MAX ->
        exists c', send m new = Some (c', _sendChunked m 0)
                   /\ Forall (fun ch => tagOf ch = 0) (_sendChunked m 0))
  /\ (forall m c,
        byteLength (bytes m) <= MESSAGE_SIZE_MAX -> _sendingTag c = 254 ->
        exists c' chunks, send m c = Some (c', chunks) /\ _sendingTag c' = 0).
Proof.
  apply (tag_monotonicity [spanning [x01]; spanning [x02; x03]] 0 0 1
           [x00; x01] [x01; x02; x03]).
  - vm_compute. reflexivity.
  - vm_compute. reflexivity.
  - discriminate.
  - intros n m Hn. lia.
Defined.

(** C5 as stated fails: a zero-length message consumes a tag without
    emitting a chunk, so the chunks of the messages sent before and after it
    are neighbours whose tags differ by two. *)
Lemma tag_monotonicity_counterexample :
  sendAll 0 [spanning [x01]; spanning []; spanning [x02]] new !! 0%nat
    = Some (0%nat, [x00; x01])
  /\ sendAll 0 [spanning [x01]; spanning []; spanning [x02]] new !! 1%nat
     = Some (2%nat, [x02; x02])
  /\ tagOf [x02; x02] <> (tagOf [x00; x01] + 1) mod 255.
Proof.
  repeat split; [vm_compute; reflexivity .. |].
  vm_compute. discriminate.
Qed.

End SendFacts.

(** ** Receiving *)

Module ReceiveFacts.
Import DataChannel.
Import SendFacts.

(** Settles the comparisons a method branches on, by arithmetic. *)
Ltac settle_tests :=
  repeat match goal with
  | |- context [?a =? ?b] => destruct (Z.eqb_spec a b); try lia
  | |- context [?a >? ?b] => destruct (Z.gtb_spec a b); try lia
  | |- context [?a <=? ?b] => destruct (Z.leb_spec a b); try lia
  end.

Lemma byteLength_cons (b : byte) l : byteLength (b :: l) = 1 + byteLength l.
Proof. unfold byteLength. simpl length. lia. Qed.

Lemma byteLength_app (l1 l2 : list byte) :
  byteLength (l1 ++ l2) = byteLength l1 + byteLength l2.
Proof. unfold byteLength. rewrite length_app. lia. Qed.

Lemma byteLength_nonneg (l : list byte) : 0 <= byteLength l.
Proof. unfold byteLength. lia. Qed.

Lemma byteLength_slice (buf : list byte) off len :
  0 <= off -> 0 <= len -> off + len <= byteLength buf ->
  byteLength (slice buf off len) = len.
Proof.
  unfold slice, byteLength. intros Hoff Hlen Hfit.
  rewrite length_take, length_drop. lia.
Qed.

Lemma take_slice (buf : list byte) off len :
  0 <= off -> 0 <= len ->
  take (Z.to_nat off) buf ++ slice buf off len = take (Z.to_nat (off + len)) buf.
Proof.
  intros Hoff Hlen. unfold slice.
  rewrite take_take_drop. f_equal. lia.
Qed.

(** The window of a view lies within its buffer. *)
Lemma byteLength_buffer msg :
  byteLength (buffer msg)
    = byteOffset msg + byteLength (bytes msg) + byteLength (after msg).
Proof. unfold buffer, byteOffset. rewrite !byteLength_app. lia. Qed.

(** Two adjoining ranges of a buffer make one range. *)
Lemma slice_app (buf : list byte) off len1 len2 :
  0 <= off -> 0 <= len1 -> 0 <= len2 ->
  slice buf off len1 ++ slice buf (off + len1) len2
    = slice buf off (len1 + len2).
Proof.
  intros Hoff H1 H2. unfold slice.
  replace (Z.to_nat (off + len1)) with (Z.to_nat off + Z.to_nat len1)%nat by lia.
  rewrite <- drop_drop, take_take_drop. f_equal. lia.
Qed.

Lemma take_all (buf : list byte) : take (Z.to_nat (byteLength buf)) buf = buf.
Proof. apply take_ge. unfold byteLength. lia. Qed.

(** A view at [byteOffset] 0 starts where its buffer starts. *)
Lemma byteOffset_0 msg : byteOffset msg = 0 -> before msg = [].
Proof.
  unfold byteOffset, byteLength. destruct (before msg); [reflexivity |].
  simpl length. lia.
Qed.

(** For a view at [byteOffset] 0, a range within the view read from the
    buffer is that range of the view. *)
Lemma slice_buffer msg off len :
  byteOffset msg = 0 ->
  0 <= off -> 0 <= len -> off + len <= byteLength (bytes msg) ->
  slice (buffer msg) off len = slice (bytes msg) off len.
Proof.
  intros Hoff Hpos Hlen Hfit. unfold slice, buffer, byteLength in *.
  rewrite (byteOffset_0 msg Hoff). simpl app.
  rewrite drop_app_le by lia. apply take_app_le.
  rewrite length_drop. lia.
Qed.

(** One turn of the [while] loop on a view at [byteOffset] 0. *)
Lemma sendChunkedLoop_step0 msg tag r :
  byteOffset msg = 0 ->
  0 < r <= byteLength (bytes msg) ->
  sendChunkedLoop msg tag r =
    (writeUint8 tag
       :: slice (bytes msg) (byteLength (bytes msg) - r) (payloadSize r))
      :: sendChunkedLoop msg tag (r - payloadSize r).
Proof.
  intros Hoff Hr. rewrite sendChunkedLoop_step by lia.
  pose proof (payloadSize_bounds r ltac:(lia)).
  rewrite slice_buffer by (try assumption; lia). reflexivity.
Qed.

Section WithProtocol.
Context `{Protocol}.

(** Where [peekLength] returns, so does [peekType]. *)
Lemma peekType_defined buf n :
  Message.peekLength buf = Some n -> exists ty, Message.peekType buf = Some ty.
Proof.
  unfold Message.peekLength, Message.peekType.
  do 9 (destruct buf as [| ? buf]; [discriminate |]).
  destruct (_ =? MAGIC); [eauto | discriminate].
Qed.

(** [peekLength] returns a 32-bit length and needs nine bytes. *)
Lemma peekLength_header buf n :
  Message.peekLength buf = Some n -> 9 <= byteLength buf.
Proof.
  unfold Message.peekLength.
  do 9 (destruct buf as [| ? buf]; [discriminate |]).
  intros _. rewrite !byteLength_cons. pose proof (byteLength_nonneg buf). lia.
Qed.

(** [peekLength] reads the first nine bytes only. *)
Lemma peekLength_take buf n k :
  Message.peekLength buf = Some n -> (9 <= k)%nat ->
  Message.peekLength (take k buf) = Some n.
Proof.
  unfold Message.peekLength.
  do 9 (destruct buf as [| ? buf]; [discriminate |]).
  do 9 (destruct k as [| k]; [lia |]).
  intros Hn _. exact Hn.
Qed.

(** A chunk that arrives while a message is being assembled goes straight
    to the buffer handling. *)
Lemma onMessage_assembling now t chunk c buf :
  readyState c = OPEN ->
  _buffer c = Some buf ->
  byteLength (t :: chunk) <= CHUNK_SIZE_MAX ->
  _onMessage now (t :: chunk) c = writeChunk now (readUint8 t) chunk c.
Proof.
  intros Hopen Hbuf Hsize. unfold _onMessage. rewrite Hopen. simpl negb. cbv iota.
  pose proof (byteLength_nonneg chunk). rewrite byteLength_cons in *.
  settle_tests.
  unfold detectNewMessage. rewrite Hbuf. reflexivity.
Qed.

(** The first chunk of a new message: the buffer is allocated with the
    declared size, the tag and the type are stored, and the chunk is then
    handled like any other. *)
Lemma onMessage_new now t chunk c n ty :
  readyState c = OPEN ->
  _buffer c = None ->
  byteLength (t :: chunk) <= CHUNK_SIZE_MAX ->
  readUint8 t = Z.rem (_receivingTag c + 1) NumberUtils.UINT8_MAX ->
  Message.peekLength chunk = Some n ->
  Message.peekType chunk = Some ty ->
  n <= MESSAGE_SIZE_MAX ->
  _onMessage now (t :: chunk) c =
    writeChunk now (readUint8 t) chunk
      (set_msgType ty
         (set_receivingTag (readUint8 t)
            (set_buffer (Some (mkSerialBuffer n [])) c))).
Proof.
  intros Hopen Hbuf Hsize Htag Hlen Hty Hmax.
  unfold _onMessage. rewrite Hopen. simpl negb. cbv iota.
  pose proof (byteLength_nonneg chunk). rewrite byteLength_cons in *.
  settle_tests.
  unfold detectNewMessage. rewrite Hbuf, Hlen, Hty.
  rewrite bool_decide_eq_true_2 by reflexivity.
  rewrite <- Htag, Z.eqb_refl. simpl andb. cbv iota.
  settle_tests. reflexivity.
Qed.

(** The chunk that completes the message. *)
Lemma writeChunk_complete now tag chunk c buf :
  _buffer c = Some buf ->
  tag = _receivingTag c ->
  byteLength chunk = capacity buf - writePos buf ->
  writeChunk now tag chunk c =
    (set_buffer None
       (set_lastChunkReceivedAt now (set_buffer (Some (write buf chunk)) c)),
     [FireMessage (written buf ++ chunk)]).
Proof.
  intros Hbuf -> Hfill. unfold writeChunk. rewrite Hbuf, Z.eqb_refl, Hfill.
  simpl negb. cbv iota. settle_tests. reflexivity.
Qed.

(** A chunk that leaves the message incomplete. *)
Lemma writeChunk_partial now tag chunk c buf :
  _buffer c = Some buf ->
  tag = _receivingTag c ->
  byteLength chunk < capacity buf - writePos buf ->
  exists c',
    writeChunk now tag chunk c = (c', [FireChunk (write buf chunk)])
    /\ _buffer c' = Some (write buf chunk)
    /\ readyState c' = readyState c
    /\ _receivingTag c' = _receivingTag c.
Proof.
  intros Hbuf -> Hfit. unfold writeChunk. rewrite Hbuf, Z.eqb_refl.
  simpl negb. cbv iota. settle_tests.
  eexists. split; [reflexivity |].
  destruct (_ !! _); simpl; auto.
Qed.

(** One turn of the [while] loop on an array that spans its buffer. *)
Lemma sendChunkedLoop_spanning (l : list byte) tag r :
  0 < r <= byteLength l ->
  sendChunkedLoop (spanning l) tag r =
    (writeUint8 tag :: slice l (byteLength l - r) (payloadSize r))
      :: sendChunkedLoop (spanning l) tag (r - payloadSize r).
Proof.
  intros Hr. exact (sendChunkedLoop_step0 (spanning l) tag r eq_refl Hr).
Qed.

(** For a [msg] at [byteOffset] 0: from a channel that holds the first
    [|msg| - r] bytes of [msg], the chunk the sender emits at
    [remaining = r] followed by the chunks of the rest of its loop completes
    the bytes of [msg]. *)
Lemma assembling_completes now msg tag :
  byteOffset msg = 0 ->
  0 <= tag < 256 ->
  forall r, 0 <= r -> 0 < r -> r <= byteLength (bytes msg) ->
  forall c,
    readyState c = OPEN ->
    _buffer c = Some (mkSerialBuffer (byteLength (bytes msg))
                        (take (Z.to_nat (byteLength (bytes msg) - r))
                           (bytes msg))) ->
    _receivingTag c = tag ->
    exists c1 e1 c2 e2,
      writeChunk now tag
        (slice (bytes msg) (byteLength (bytes msg) - r) (payloadSize r)) c
        = (c1, e1)
      /\ receive now (sendChunkedLoop msg tag (r - payloadSize r)) c1 = (c2, e2)
      /\ messagesFired (e1 ++ e2) = [bytes msg]
      /\ errorsFired (e1 ++ e2) = []
      /\ _buffer c2 = None
      /\ readyState c2 = OPEN
      /\ _receivingTag c2 = tag.
Proof.
  intros Hoff Htag.
  apply (remaining_ind (fun r =>
    0 < r -> r <= byteLength (bytes msg) ->
    forall c,
      readyState c = OPEN ->
      _buffer c = Some (mkSerialBuffer (byteLength (bytes msg))
                          (take (Z.to_nat (byteLength (bytes msg) - r)) (bytes msg))) ->
      _receivingTag c = tag ->
      exists c1 e1 c2 e2,
        writeChunk now tag
          (slice (bytes msg) (byteLength (bytes msg) - r) (payloadSize r)) c
          = (c1, e1)
        /\ receive now (sendChunkedLoop msg tag (r - payloadSize r)) c1 = (c2, e2)
        /\ messagesFired (e1 ++ e2) = [bytes msg]
        /\ errorsFired (e1 ++ e2) = []
        /\ _buffer c2 = None
        /\ readyState c2 = OPEN
        /\ _receivingTag c2 = tag)).
  intros r _ IH Hpos Hfit c Hopen Hbuf Hrt.
  pose proof (payloadSize_bounds r Hpos) as [[Hp0 Hpr] Hpmax].
  set (buf := mkSerialBuffer (byteLength (bytes msg))
                (take (Z.to_nat (byteLength (bytes msg) - r)) (bytes msg))) in *.
  assert (Hwp : writePos buf = byteLength (bytes msg) - r).
  { unfold writePos, buf, byteLength. simpl. rewrite length_take.
    unfold byteLength in Hfit. lia. }
  assert (Hsl : byteLength
                  (slice (bytes msg) (byteLength (bytes msg) - r)
                     (payloadSize r))
                = payloadSize r)
    by (apply byteLength_slice; lia).
  assert (Hwr : written buf
                  ++ slice (bytes msg) (byteLength (bytes msg) - r)
                       (payloadSize r)
                = take (Z.to_nat (byteLength (bytes msg) - (r - payloadSize r)))
                    (bytes msg)).
  { unfold buf. simpl. rewrite take_slice by lia. do 2 f_equal. lia. }
  destruct (Z.eq_dec (r - payloadSize r) 0) as [Hlast | Hmore].
  - (* the last chunk *)
    eexists _, _, _, _. split.
    { apply (writeChunk_complete now tag _ c buf Hbuf); [congruence |].
      rewrite Hsl, Hwp. simpl. lia. }
    rewrite Hlast, sendChunkedLoop_done by lia. simpl receive.
    split; [reflexivity |]. rewrite Hwr, Hlast, Z.sub_0_r, take_all.
    simpl. repeat split; [exact Hopen | exact Hrt].
  - (* a full chunk, and more to come *)
    destruct (writeChunk_partial now tag
                (slice (bytes msg) (byteLength (bytes msg) - r)
                   (payloadSize r)) c buf Hbuf)
      as (c1 & Hw & Hbuf1 & Hopen1 & Hrt1);
      [congruence | rewrite Hsl, Hwp; simpl; lia |].
    assert (Hbuf1' : _buffer c1 =
              Some (mkSerialBuffer (byteLength (bytes msg))
                      (take
                         (Z.to_nat
                            (byteLength (bytes msg) - (r - payloadSize r)))
                         (bytes msg)))).
    { rewrite Hbuf1. unfold write. rewrite Hwr. reflexivity. }
    destruct (IH (r - payloadSize r) ltac:(lia) ltac:(lia) ltac:(lia)
                c1 ltac:(congruence) Hbuf1' ltac:(congruence))
      as (c2 & e2 & c3 & e3 & Hw2 & Hrest & Hmsgs & Herrs & Hb3 & Ho3 & Ht3).
    pose proof (payloadSize_bounds (r - payloadSize r) ltac:(lia))
      as [[Hq0 Hqr] Hqmax].
    exists c1,
           [FireChunk
              (write buf
                 (slice (bytes msg) (byteLength (bytes msg) - r)
                    (payloadSize r)))],
           c3, (e2 ++ e3).
    split; [exact Hw |]. split.
    { rewrite sendChunkedLoop_step0 by (try assumption; lia). simpl receive.
      rewrite (onMessage_assembling now _ _ c1 _ ltac:(congruence) Hbuf1').
      - rewrite read_writeUint8 by exact Htag. rewrite Hw2, Hrest. reflexivity.
      - rewrite byteLength_cons, byteLength_slice by lia. lia. }
    simpl. repeat split; assumption.
Qed.

(** An idle open channel that is handed the chunks of a framed message at
    [byteOffset] 0, under the tag it expects next, fires exactly one
    ['message'] with the bytes of the message, fires no ['error'], and is
    idle again. *)
Lemma receive_fresh_message now msg tag c :
  byteOffset msg = 0 ->
  readyState c = OPEN ->
  _buffer c = None ->
  tag = Z.rem (_receivingTag c + 1) NumberUtils.UINT8_MAX ->
  0 <= tag < 256 ->
  byteLength (bytes msg) <= MESSAGE_SIZE_MAX ->
  Message.peekLength (bytes msg) = Some (byteLength (bytes msg)) ->
  exists c' evs,
    receive now (_sendChunked msg tag) c = (c', evs)
    /\ messagesFired evs = [bytes msg]
    /\ errorsFired evs = []
    /\ _buffer c' = None
    /\ readyState c' = OPEN
    /\ _receivingTag c' = tag.
Proof.
  intros Hoff Hopen Hidle Hnext Htag Hmax Hlen.
  pose proof (peekLength_header _ _ Hlen) as Hhdr.
  pose proof (payloadSize_bounds (byteLength (bytes msg)) ltac:(lia))
    as [[Hp0 Hpr] Hpmax].
  set (first := slice (bytes msg) (byteLength (bytes msg) - byteLength (bytes msg))
                  (payloadSize (byteLength (bytes msg)))).
  assert (Hfirst : first
            = take (Z.to_nat (payloadSize (byteLength (bytes msg)))) (bytes msg)).
  { unfold first, slice. rewrite Z.sub_diag. reflexivity. }
  assert (Hplen : Message.peekLength first = Some (byteLength (bytes msg))).
  { rewrite Hfirst. apply peekLength_take; [exact Hlen |].
    unfold payloadSize, CHUNK_SIZE_MAX in *.
    destruct (Z.geb_spec (byteLength (bytes msg) + 1) (1024 * 16)); lia. }
  destruct (peekType_defined _ _ Hplen) as [ty Hty].
  set (c0 := set_msgType ty
               (set_receivingTag tag
                  (set_buffer (Some (mkSerialBuffer (byteLength (bytes msg)) [])) c))).
  destruct (assembling_completes now msg tag Hoff Htag (byteLength (bytes msg))
              ltac:(lia) ltac:(lia) ltac:(lia) c0)
    as (c1 & e1 & c2 & e2 & Hw & Hrest & Hmsgs & Herrs & Hb & Ho & Ht).
  { exact Hopen. }
  { unfold c0. simpl. rewrite Z.sub_diag. reflexivity. }
  { reflexivity. }
  exists c2, (e1 ++ e2).
  split; [| repeat split; assumption].
  unfold _sendChunked. rewrite sendChunkedLoop_step0 by (try assumption; lia).
  simpl receive. fold first.
  rewrite (onMessage_new now _ first c (byteLength (bytes msg)) ty Hopen Hidle).
  - rewrite read_writeUint8 by exact Htag. fold c0. fold first in Hw.
    rewrite Hw, Hrest. reflexivity.
  - rewrite byteLength_cons. unfold first.
    rewrite byteLength_slice by lia. lia.
  - rewrite read_writeUint8 by exact Htag. exact Hnext.
  - exact Hplen.
  - exact Hty.
  - exact Hmax.
Qed.

Lemma error_closes msg c :
  readyState c = OPEN ->
  exists c',
    _error msg c = (c', [FireError msg; LogError; FireClose])
    /\ readyState c' = CLOSED
    /\ _buffer c' = _buffer c.
Proof.
  intros Hopen. unfold _error, close. rewrite Hopen. simpl.
  eexists. repeat split.
Qed.

(** C2, as amended. For every [Uint8Array] [m] that starts at offset 0 of
    its [ArrayBuffer] ([m.byteOffset = 0]), with [|m| <= MESSAGE_SIZE_MAX]
    and whose bytes start with a frame header declaring the length [|m|],
    the chunks that [send(m)] emits on a channel at sending tag 0, fed to a
    fresh open channel, fire exactly one ['message'] whose bytes are those
    of [m] and no ['error']. *)
Theorem chunk_framing (now : Z) (m : Uint8Array) (sender : t) :
  byteOffset m = 0 ->
  byteLength (bytes m) <= MESSAGE_SIZE_MAX ->
  Message.peekLength (bytes m) = Some (byteLength (bytes m)) ->
  _sendingTag sender = 0 ->
  exists sender' chunks c' evs,
    send m sender = Some (sender', chunks)
    /\ receive now chunks new = (c', evs)
    /\ messagesFired evs = [bytes m]
    /\ errorsFired evs = [].
Proof.
  intros Hoff Hmax Hlen Htag.
  destruct (receive_fresh_message now m 0 new)
    as (c' & evs & Hrecv & Hmsgs & Herrs & _);
    try reflexivity; try assumption; [lia |].
  eexists _, _, c', evs. split; [apply send_some; exact Hmax |].
  rewrite Htag. auto.
Qed.

(** C3. The first chunk of a new message whose header declares more than
    [MESSAGE_SIZE_MAX = 10485760] bytes fires ['error'] and closes the
    channel, which is left without a reassembly buffer; a declared length of
    exactly [MESSAGE_SIZE_MAX] fires no ['error'], keeps the channel open and
    leaves it with a buffer of that size holding the chunk. *)
Theorem declared_size_limit (now : Z) (t : byte) (chunk : list byte)
    (c : DataChannel.t) (n : Z) :
  readyState c = OPEN ->
  _buffer c = None ->
  byteLength (t :: chunk) <= CHUNK_SIZE_MAX ->
  readUint8 t = Z.rem (_receivingTag c + 1) NumberUtils.UINT8_MAX ->
  Message.peekLength chunk = Some n ->
  MESSAGE_SIZE_MAX = 10485760
  /\ (MESSAGE_SIZE_MAX < n ->
      exists c',
        _onMessage now (t :: chunk) c
          = (c', [FireError (ExcessiveMessageSize n); LogError; FireClose])
        /\ _buffer c' = None
        /\ readyState c' = CLOSED)
  /\ (n = MESSAGE_SIZE_MAX ->
      exists c' evs,
        _onMessage now (t :: chunk) c = (c', evs)
        /\ errorsFired evs = []
        /\ readyState c' = OPEN
        /\ _buffer c' = Some (mkSerialBuffer MESSAGE_SIZE_MAX chunk)
        /\ _receivingTag c' = readUint8 t).
Proof.
  intros Hopen Hidle Hsize Htag Hlen.
  pose proof (byteLength_nonneg chunk) as Hnn.
  split; [reflexivity |]. split.
  - intros Hbig.
    destruct (error_closes (ExcessiveMessageSize n) c Hopen)
      as (c' & Herr & Hclosed & Hbuf).
    exists c'. split; [| split; [congruence | exact Hclosed]].
    unfold _onMessage. rewrite Hopen. simpl negb. cbv iota.
    rewrite byteLength_cons in *. settle_tests.
    unfold detectNewMessage. rewrite Hidle, Hlen.
    rewrite bool_decide_eq_true_2 by reflexivity.
    rewrite <- Htag, Z.eqb_refl. simpl andb. cbv iota.
    settle_tests. exact Herr.
  - intros ->.
    destruct (peekType_defined _ _ Hlen) as [ty Hty].
    rewrite (onMessage_new now t chunk c MESSAGE_SIZE_MAX ty)
      by (try assumption; lia).
    destruct (writeChunk_partial now (readUint8 t) chunk
                (set_msgType ty
                   (set_receivingTag (readUint8 t)
                      (set_buffer (Some (mkSerialBuffer MESSAGE_SIZE_MAX [])) c)))
                (mkSerialBuffer MESSAGE_SIZE_MAX []))
      as (c' & Hw & Hbuf & Hstate & Hrt);
      [reflexivity | reflexivity | | ].
    { rewrite byteLength_cons in Hsize. unfold CHUNK_SIZE_MAX in Hsize.
      unfold writePos, MESSAGE_SIZE_MAX. cbn [capacity written].
      change (byteLength []) with 0. lia. }
    exists c', [FireChunk (write (mkSerialBuffer MESSAGE_SIZE_MAX []) chunk)].
    split; [exact Hw |]. split; [reflexivity |].
    split; [rewrite Hstate; exact Hopen |].
    split; [rewrite Hbuf; reflexivity | rewrite Hrt; reflexivity].
Qed.

(** C4, as amended. A non-empty chunk of at most [CHUNK_SIZE_MAX] bytes that
    arrives on an idle open channel with a tag other than
    [(receivingTag + 1) mod 255] is logged and dropped: no event is fired,
    the channel stays open and its state is unchanged. (A longer chunk
    fires ['error'] and closes the channel whatever its tag.) *)
Theorem idle_wrong_tag_dropped (now : Z) (t : byte) (chunk : list byte)
    (c : DataChannel.t) :
  readyState c = OPEN ->
  _buffer c = None ->
  -1 <= _receivingTag c ->
  readUint8 t <> (_receivingTag c + 1) mod 255 ->
  (byteLength (t :: chunk) <= CHUNK_SIZE_MAX ->
     _onMessage now (t :: chunk) c = (c, [LogError]))
  /\ (CHUNK_SIZE_MAX < byteLength (t :: chunk) ->
      exists c',
        _onMessage now (t :: chunk) c
          = (c', [FireError ChunkTooLarge; LogError; FireClose])
        /\ readyState c' = CLOSED).
Proof.
  intros Hopen Hidle Hrt Htag.
  pose proof (byteLength_nonneg chunk) as Hnn.
  rewrite <- next_tag_mod in Htag by lia.
  split; intros Hsize.
  - unfold _onMessage. rewrite Hopen. simpl negb. cbv iota.
    rewrite byteLength_cons in *. settle_tests.
    unfold detectNewMessage. rewrite Hidle.
    rewrite bool_decide_eq_true_2 by reflexivity.
    simpl andb. settle_tests.
    unfold writeChunk. rewrite Hidle. reflexivity.
  - destruct (error_closes ChunkTooLarge c Hopen) as (c' & Herr & Hclosed & _).
    exists c'. split; [| exact Hclosed].
    unfold _onMessage. rewrite Hopen. simpl negb. cbv iota.
    rewrite byteLength_cons in *. settle_tests. exact Herr.
Qed.

End WithProtocol.

Lemma chunk_framing_witness :
  exists sender' chunks c' evs,
    send (mkUint8Array [] (exampleHeader 6 15 ++ [x01; x02]) [x09; x09]) new
      = Some (sender', chunks)
    /\ @receive exampleProtocol 7 chunks new = (c', evs)
    /\ messagesFired evs = [exampleHeader 6 15 ++ [x01; x02]]
    /\ errorsFired evs = [].
Proof.
  apply (@chunk_framing exampleProtocol 7
           (mkUint8Array [] (exampleHeader 6 15 ++ [x01; x02]) [x09; x09]) new).
  - reflexivity.
  - vm_compute. discriminate.
  - vm_compute. reflexivity.
  - reflexivity.
Defined.

(** C2 as stated fails. A zero-length message is sent as no chunk at all,
    so the receiver fires nothing. A byte string that does not start with a
    frame header declaring its own length is not delivered either: the three
    bytes below are sent as one chunk, the receiver cannot peek a length,
    fires ['error'] and closes, and fires no ['message']. *)
Lemma chunk_framing_counterexample :
  byteLength [] <= MESSAGE_SIZE_MAX
  /\ send (spanning []) new = Some (set_sendingTag 1 new, [])
  /\ @receive exampleProtocol 7 [] new = (new, [])
  /\ messagesFired [] <> [[]]
  /\ byteLength [x01; x02; x03] <= MESSAGE_SIZE_MAX
  /\ send (spanning [x01; x02; x03]) new
       = Some (set_sendingTag 1 new, [[x00; x01; x02; x03]])
  /\ snd (@receive exampleProtocol 7 [[x00; x01; x02; x03]] new)
       = [FireError ParsingError; LogError; FireClose]
  /\ messagesFired [FireError ParsingError; LogError; FireClose]
       <> [[x01; x02; x03]]
  /\ errorsFired [FireError ParsingError; LogError; FireClose]
       = [ParsingError].
Proof.
  repeat split; try (vm_compute; reflexivity); vm_compute; discriminate.
Qed.

Lemma declared_size_limit_witness :
  MESSAGE_SIZE_MAX = 10485760
  /\ (MESSAGE_SIZE_MAX < 10485760 ->
      exists c',
        @_onMessage exampleProtocol 7 (x00 :: exampleHeader 6 10485760) new
          = (c', [FireError (ExcessiveMessageSize 10485760); LogError; FireClose])
        /\ _buffer c' = None
        /\ readyState c' = CLOSED)
  /\ (10485760 = MESSAGE_SIZE_MAX ->
      exists c' evs,
        @_onMessage exampleProtocol 7 (x00 :: exampleHeader 6 10485760) new
          = (c', evs)
        /\ errorsFired evs = []
        /\ readyState c' = OPEN
        /\ _buffer c'
             = Some (mkSerialBuffer MESSAGE_SIZE_MAX (exampleHeader 6 10485760))
        /\ _receivingTag c' = readUint8 x00).
Proof.
  apply (@declared_size_limit exampleProtocol 7 x00
           (exampleHeader 6 10485760) new 10485760).
  - reflexivity.
  - reflexivity.
  - vm_compute. discriminate.
  - vm_compute. reflexivity.
  - vm_compute. reflexivity.
Defined.

Lemma idle_wrong_tag_dropped_witness :
  (byteLength [x05; x09] <= CHUNK_SIZE_MAX ->
     @_onMessage exampleProtocol 7 [x05; x09] new = (new, [LogError]))
  /\ (CHUNK_SIZE_MAX < byteLength [x05; x09] ->
      exists c',
        @_onMessage exampleProtocol 7 [x05; x09] new
          = (c', [FireError ChunkTooLarge; LogError; FireClose])
        /\ readyState c' = CLOSED).
Proof.
  apply (@idle_wrong_tag_dropped exampleProtocol 7 x05 [x09] new).
  - reflexivity.
  - reflexivity.
  - simpl. lia.
  - vm_compute. discriminate.
Defined.

(** C4 as stated fails: on a fresh open channel, which expects tag 0, a
    chunk tagged 5 (which also differs from [(receivingTag + 1) mod 256])
    fires no ['error'] and does not close the channel; it is logged and
    dropped. *)
Lemma idle_wrong_tag_counterexample :
  readyState new = OPEN
  /\ _buffer new = None
  /\ readUint8 x05 <> (_receivingTag new + 1) mod 256
  /\ @_onMessage exampleProtocol 7 [x05; x09] new = (new, [LogError])
  /\ errorsFired [LogError] = [].
Proof.
  repeat split; try (vm_compute; discriminate).
Qed.

End ReceiveFacts.

(** ** Expectations and timers *)

Module ExpectFacts.
Import DataChannel.
Import SendFacts.
Import ReceiveFacts.

Lemma deleteAll_lookup tys (m : gmap Z ExpectedMessage) ty :
  deleteAll tys m !! ty = if bool_decide (ty ∈ tys) then None else m !! ty.
Proof.
  revert m. induction tys as [| t ts IH]; intros m.
  - rewrite bool_decide_eq_false_2 by apply not_elem_of_nil. reflexivity.
  - change (deleteAll (t :: ts) m) with (deleteAll ts (delete t m)).
    rewrite IH. destruct (decide (ty ∈ ts)) as [Hin | Hout].
    + rewrite !bool_decide_eq_true_2; [reflexivity | | exact Hin].
      apply elem_of_cons. right. exact Hin.
    + rewrite (bool_decide_eq_false_2 _ Hout).
      destruct (decide (ty = t)) as [-> | Hne].
      * rewrite bool_decide_eq_true_2 by (apply elem_of_cons; left; reflexivity).
        apply lookup_delete_eq.
      * rewrite bool_decide_eq_false_2.
        -- apply lookup_delete_ne. congruence.
        -- rewrite elem_of_cons. tauto.
Qed.

Lemma setAll_lookup tys e (m : gmap Z ExpectedMessage) ty :
  setAll tys e m !! ty = if bool_decide (ty ∈ tys) then Some e else m !! ty.
Proof.
  revert m. induction tys as [| t ts IH]; intros m.
  - rewrite bool_decide_eq_false_2 by apply not_elem_of_nil. reflexivity.
  - change (setAll (t :: ts) e m) with (setAll ts e (<[t := e]> m)).
    rewrite IH. destruct (decide (ty ∈ ts)) as [Hin | Hout].
    + rewrite !bool_decide_eq_true_2; [reflexivity | | exact Hin].
      apply elem_of_cons. right. exact Hin.
    + rewrite (bool_decide_eq_false_2 _ Hout).
      destruct (decide (ty = t)) as [-> | Hne].
      * rewrite bool_decide_eq_true_2 by (apply elem_of_cons; left; reflexivity).
        apply lookup_insert_eq.
      * rewrite bool_decide_eq_false_2.
        -- apply lookup_insert_ne. congruence.
        -- rewrite elem_of_cons. tauto.
Qed.

(** A chunk timer and a message timer never share a key. *)
Lemma chunkKey_msgKey e e' : chunkKey e <> msgKey e'.
Proof. unfold chunkKey, msgKey. simpl. discriminate. Qed.

(** What the shared body of [_onTimeout] and [confirmExpectedMessage] does
    to the timers: the two keys of the expectation are gone, the others
    stay. *)
Lemma clear_both_timers e (tm : gmap string Timer) :
  clearTimeout (msgKey e) (clearTimeout (chunkKey e) tm) !! chunkKey e = None
  /\ clearTimeout (msgKey e) (clearTimeout (chunkKey e) tm) !! msgKey e = None
  /\ (forall k, k <> chunkKey e -> k <> msgKey e ->
        clearTimeout (msgKey e) (clearTimeout (chunkKey e) tm) !! k = tm !! k).
Proof.
  unfold clearTimeout. repeat split.
  - rewrite lookup_delete_ne by (intros E; exact (chunkKey_msgKey e e (eq_sym E))).
    apply lookup_delete_eq.
  - apply lookup_delete_eq.
  - intros k Hc Hm. rewrite !lookup_delete_ne by congruence. reflexivity.
Qed.

(** C7. [confirmExpectedMessage(type, success)]: when an expectation is
    registered for [type], its two timers are cancelled, the map has no
    entry left under any of its types, and its timeout callback is invoked
    exactly when [success] is false; the rest of the channel is untouched.
    When none is registered (or [type] is null) the channel is unchanged and
    nothing is invoked. *)
Theorem confirm_expected (type : option Z) (success : bool) (c : DataChannel.t) :
  (forall ty e,
      type = Some ty ->
      _expectedMessagesByType c !! ty = Some e ->
      exists c',
        confirmExpectedMessage type success c
          = (c', if success then [] else [TimeoutCallback (timeoutCallback e)])
        /\ _timers c' !! chunkKey e = None
        /\ _timers c' !! msgKey e = None
        /\ (forall t, t ∈ types e -> _expectedMessagesByType c' !! t = None)
        /\ (forall t, t ∉ types e ->
              _expectedMessagesByType c' !! t = _expectedMessagesByType c !! t)
        /\ (forall k, k <> chunkKey e -> k <> msgKey e ->
              _timers c' !! k = _timers c !! k)
        /\ _buffer c' = _buffer c
        /\ readyState c' = readyState c)
  /\ (type ≫= (fun ty => _expectedMessagesByType c !! ty) = None ->
      confirmExpectedMessage type success c = (c, [])).
Proof.
  split.
  - intros ty e -> He. unfold confirmExpectedMessage. simpl. rewrite He.
    destruct (clear_both_timers e (_timers c)) as (Hc & Hm & Hk).
    eexists. split; [destruct success; reflexivity |].
    simpl. repeat split; try assumption.
    + intros t Hin. rewrite deleteAll_lookup.
      rewrite bool_decide_eq_true_2 by exact Hin. reflexivity.
    + intros t Hout. rewrite deleteAll_lookup.
      rewrite bool_decide_eq_false_2 by exact Hout. reflexivity.
  - intros Hnone. unfold confirmExpectedMessage. rewrite Hnone. reflexivity.
Qed.

(** C8, as amended. [expectMessage(types, ...)] with non-empty [types] puts
    the new expectation under every type in [types], replacing the entry
    that was there, and arms its timers [chunk-<id>] and [msg-<id>],
    replacing timers under these two keys; entries under other types and
    timers under other keys stay as they were. *)
Theorem expect_registers (tys : list Z) (cb : nat) (msgT chunkT : option Z)
    (c : DataChannel.t) :
  tys <> [] ->
  exists e,
    e = newExpectedMessage tys cb (default MESSAGE_TIMEOUT msgT)
          (default CHUNK_TIMEOUT chunkT)
    /\ (forall ty, ty ∈ tys ->
          _expectedMessagesByType (expectMessage (TypeArray tys) cb msgT chunkT c)
            !! ty = Some e)
    /\ _timers (expectMessage (TypeArray tys) cb msgT chunkT c) !! chunkKey e
         = Some (mkTimer e (default CHUNK_TIMEOUT chunkT))
    /\ _timers (expectMessage (TypeArray tys) cb msgT chunkT c) !! msgKey e
         = Some (mkTimer e (default MESSAGE_TIMEOUT msgT))
    /\ (forall ty, ty ∉ tys ->
          _expectedMessagesByType (expectMessage (TypeArray tys) cb msgT chunkT c)
            !! ty = _expectedMessagesByType c !! ty)
    /\ (forall k, k <> chunkKey e -> k <> msgKey e ->
          _timers (expectMessage (TypeArray tys) cb msgT chunkT c) !! k
            = _timers c !! k).
Proof.
  intros Hne. eexists. split; [reflexivity |].
  set (e := newExpectedMessage _ _ _ _).
  assert (Hexp : expectMessage (TypeArray tys) cb msgT chunkT c =
            set_timers
              (resetTimeout (msgKey e) e (default MESSAGE_TIMEOUT msgT)
                 (resetTimeout (chunkKey e) e (default CHUNK_TIMEOUT chunkT)
                    (_timers c)))
              (set_expected (setAll tys e (_expectedMessagesByType c)) c)).
  { unfold expectMessage. destruct tys; [congruence | reflexivity]. }
  rewrite Hexp. simpl. unfold resetTimeout, clearTimeout.
  repeat split.
  - intros ty Hin. rewrite setAll_lookup.
    rewrite bool_decide_eq_true_2 by exact Hin. reflexivity.
  - rewrite lookup_insert_ne
      by (intros E; exact (chunkKey_msgKey e e (eq_sym E))).
    rewrite lookup_delete_ne
      by (intros E; exact (chunkKey_msgKey e e (eq_sym E))).
    apply lookup_insert_eq.
  - apply lookup_insert_eq.
  - intros ty Hout. rewrite setAll_lookup.
    rewrite bool_decide_eq_false_2 by exact Hout. reflexivity.
  - intros k Hc Hm.
    rewrite lookup_insert_ne, lookup_delete_ne by congruence.
    rewrite lookup_insert_ne, lookup_delete_ne by congruence.
    reflexivity.
Qed.

(** C6. When a timer armed for an expectation expires, the handler leaves
    no map entry under any of the expectation's types, cancels its two
    timers, invokes its timeout callback exactly once, clears the reassembly
    buffer, fires neither ['error'] nor ['close'] and leaves the ready state
    as it was; on an open channel a framed message sent under the next tag
    (from an array that spans its buffer) is then received whole. *)
Theorem timeout_policy `{Protocol} (now : Z) (key : string) (tm : Timer)
    (c : DataChannel.t) :
  _timers c !! key = Some tm ->
  exists c' evs,
    timerExpires key c = (c', evs)
    /\ (forall ty, ty ∈ types (boundTo tm) ->
          _expectedMessagesByType c' !! ty = None)
    /\ _timers c' !! chunkKey (boundTo tm) = None
    /\ _timers c' !! msgKey (boundTo tm) = None
    /\ callbacksInvoked evs = [timeoutCallback (boundTo tm)]
    /\ _buffer c' = None
    /\ readyState c' = readyState c
    /\ (FireClose ∉ evs)
    /\ errorsFired evs = []
    /\ (forall m,
          readyState c = OPEN ->
          -1 <= _receivingTag c ->
          byteLength m <= MESSAGE_SIZE_MAX ->
          Message.peekLength m = Some (byteLength m) ->
          exists c'' evs',
            receive now
              (_sendChunked (spanning m) ((_receivingTag c + 1) mod 255)) c'
              = (c'', evs')
            /\ messagesFired evs' = [m]
            /\ errorsFired evs' = []).
Proof.
  intros Harmed. unfold timerExpires. rewrite Harmed.
  set (e := boundTo tm).
  destruct (clear_both_timers e (_timers c)) as (Hc & Hm & _).
  eexists _, _. split; [reflexivity |].
  simpl. repeat split; try assumption.
  - intros ty Hin. rewrite deleteAll_lookup.
    rewrite bool_decide_eq_true_2 by exact Hin. reflexivity.
  - intros Hin. rewrite !elem_of_cons in Hin.
    destruct Hin as [Hin | [Hin | Hin]]; try discriminate.
    exact (not_elem_of_nil _ Hin).
  - intros m Hopen Hrt Hmax Hlen.
    edestruct (receive_fresh_message now (spanning m)
                 ((_receivingTag c + 1) mod 255))
      as (c'' & evs' & Hrecv & Hmsgs & Herrs & _);
      [reflexivity | | | | | exact Hmax | exact Hlen | ].
    5: { exists c'', evs'. split; [exact Hrecv | split; assumption]. }
    + exact Hopen.
    + reflexivity.
    + simpl. symmetry. apply next_tag_mod. exact Hrt.
    + pose proof (Z.mod_pos_bound (_receivingTag c + 1) 255 ltac:(lia)). lia.
Qed.

Lemma timeout_policy_witness :
  exists c' evs,
    timerExpires "msg-6"
      (expectMessage (OneType 6) 0%nat (Some 100) (Some 50) new) = (c', evs)
    /\ (forall ty, ty ∈ [6] -> _expectedMessagesByType c' !! ty = None)
    /\ callbacksInvoked evs = [0%nat]
    /\ _buffer c' = None
    /\ readyState c' = OPEN.
Proof.
  destruct (@timeout_policy exampleProtocol 7 "msg-6"
              (mkTimer (newExpectedMessage [6] 0%nat 100 50) 100)
              (expectMessage (OneType 6) 0%nat (Some 100) (Some 50) new))
    as (c' & evs & Hrun & Hgone & _ & _ & Hcb & Hbuf & Hstate & _).
  - vm_compute. reflexivity.
  - exists c', evs. repeat split; assumption.
Defined.

Lemma confirm_expected_witness :
  exists c',
    confirmExpectedMessage (Some 2) false
      (expectMessage (TypeArray [1; 2]) 0%nat None None new)
      = (c', [TimeoutCallback 0%nat])
    /\ (forall t, t ∈ [1; 2] -> _expectedMessagesByType c' !! t = None)
    /\ _timers c' !! "chunk-1:2"%string = None
    /\ _timers c' !! "msg-1:2"%string = None.
Proof.
  destruct (confirm_expected (Some 2) false
              (expectMessage (TypeArray [1; 2]) 0%nat None None new))
    as [Hreg _].
  destruct (Hreg 2 (newExpectedMessage [1; 2] 0%nat MESSAGE_TIMEOUT CHUNK_TIMEOUT))
    as (c' & Hrun & Hc & Hm & Hgone & _).
  - reflexivity.
  - vm_compute. reflexivity.
  - exists c'. repeat split; assumption.
Defined.

Lemma expect_registers_witness :
  exists e,
    e = newExpectedMessage [2; 3] 1%nat MESSAGE_TIMEOUT CHUNK_TIMEOUT
    /\ (forall ty, ty ∈ [2; 3] ->
          _expectedMessagesByType
            (expectMessage (TypeArray [2; 3]) 1%nat None None new) !! ty
          = Some e)
    /\ _timers (expectMessage (TypeArray [2; 3]) 1%nat None None new)
         !! chunkKey e = Some (mkTimer e CHUNK_TIMEOUT)
    /\ _timers (expectMessage (TypeArray [2; 3]) 1%nat None None new)
         !! msgKey e = Some (mkTimer e MESSAGE_TIMEOUT).
Proof.
  destruct (expect_registers [2; 3] 1%nat None None new)
    as (e & He & Hin & Hc & Hm & _).
  - discriminate.
  - exists e. repeat split; assumption.
Defined.

(** C8 as stated fails. After [expectMessage([1, 2], cb0)] and then
    [expectMessage([2, 3], cb1)], the first expectation, which shares type 2
    with the second, is still the entry under type 1 and its timers
    [chunk-1:2] and [msg-1:2] are still armed; when [msg-1:2] expires, its
    handler invokes [cb0] and deletes the entry under type 2, which by then
    belongs to the second expectation. *)
Lemma expect_overwrite_counterexample :
  _expectedMessagesByType
    (expectMessage (TypeArray [2; 3]) 1%nat None None
       (expectMessage (TypeArray [1; 2]) 0%nat None None new)) !! 1
    = Some (newExpectedMessage [1; 2] 0%nat MESSAGE_TIMEOUT CHUNK_TIMEOUT)
  /\ _timers
       (expectMessage (TypeArray [2; 3]) 1%nat None None
          (expectMessage (TypeArray [1; 2]) 0%nat None None new))
       !! "chunk-1:2"%string
     = Some (mkTimer
               (newExpectedMessage [1; 2] 0%nat MESSAGE_TIMEOUT CHUNK_TIMEOUT)
               CHUNK_TIMEOUT)
  /\ _timers
       (expectMessage (TypeArray [2; 3]) 1%nat None None
          (expectMessage (TypeArray [1; 2]) 0%nat None None new))
       !! "msg-1:2"%string
     = Some (mkTimer
               (newExpectedMessage [1; 2] 0%nat MESSAGE_TIMEOUT CHUNK_TIMEOUT)
               MESSAGE_TIMEOUT)
  /\ callbacksInvoked
       (snd (timerExpires "msg-1:2"
               (expectMessage (TypeArray [2; 3]) 1%nat None None
                  (expectMessage (TypeArray [1; 2]) 0%nat None None new))))
     = [0%nat]
  /\ _expectedMessagesByType
       (fst (timerExpires "msg-1:2"
               (expectMessage (TypeArray [2; 3]) 1%nat None None
                  (expectMessage (TypeArray [1; 2]) 0%nat None None new)))) !! 2
     = None.
Proof.
  repeat split; vm_compute; reflexivity.
Qed.

End ExpectFacts.

(** ** The receive path of PeerChannel *)

Module PeerFacts.
Import PeerChannel.

(** [confirmExpectedMessage] does not touch the ready state, and all it can
    make observable is one timeout callback. *)
Lemma confirm_quiet type success c :
  DataChannel.readyState (fst (DataChannel.confirmExpectedMessage type success c))
    = DataChannel.readyState c
  /\ (snd (DataChannel.confirmExpectedMessage type success c) = []
      \/ exists cb,
           snd (DataChannel.confirmExpectedMessage type success c)
             = [DataChannel.TimeoutCallback cb]).
Proof.
  unfold DataChannel.confirmExpectedMessage.
  destruct (type ≫= _) as [e |]; [| simpl; auto].
  destruct success; simpl; eauto.
Qed.

Section WithFactory.
Context `{MessageFactory}.

(** Events of the underlying channel are neither sends, nor close calls,
    nor dispatches, nor message logs. *)
Lemma conn_events_silent (evs : list DataChannel.Event) :
  rejectsSent (map Conn evs) = []
  /\ closeCalls (map Conn evs) = []
  /\ dispatched (map Conn evs) = []
  /\ messageLogs (map Conn evs) = [].
Proof.
  induction evs as [| e evs (IH1 & IH2 & IH3 & IH4)]; [repeat split |].
  repeat split; simpl; assumption.
Qed.

Lemma conn_events_no_close (evs : list DataChannel.Event) :
  (evs = [] \/ exists cb, evs = [DataChannel.TimeoutCallback cb]) ->
  Conn DataChannel.FireClose ∉ map Conn evs.
Proof.
  intros [-> | [cb ->]]; simpl.
  - apply not_elem_of_nil.
  - intros Hin. rewrite !elem_of_cons in Hin.
    destruct Hin as [Hin | Hin]; [discriminate |].
    exact (not_elem_of_nil _ Hin).
Qed.

(** C1. When the parse of a received frame fails: if the peeked type is
    null or [REJECT], [PeerChannel] calls [close] once, with
    [FAILED_TO_PARSE_MESSAGE_TYPE], sends no [REJECT], and an open channel
    is closed; otherwise it sends exactly one
    [REJECT(peekedType, REJECT_MALFORMED, err)], makes no [close] call and
    leaves the ready state as it was. In both cases nothing is dispatched. *)
Theorem malformed_policy (start finish : Z)
    (subscribers : ParsedMessage -> Subscribers)
    (rawMsg : list byte) (p : PeerChannel.t) (type : option Z) (e : string) :
  tryParse rawMsg = Caught type e ->
  exists p' evs,
    _onMessage start finish subscribers rawMsg p = (p', evs)
    /\ dispatched evs = []
    /\ (type = None \/ type = Some REJECT ->
        closeCalls evs
          = [(FAILED_TO_PARSE_MESSAGE_TYPE, "Failed to parse message type"%string)]
        /\ rejectsSent evs = []
        /\ (DataChannel.readyState (_conn p) = DataChannel.OPEN ->
            DataChannel.readyState (_conn p') = DataChannel.CLOSED))
    /\ (forall ty, type = Some ty -> ty <> REJECT ->
        rejectsSent evs = [mkRejectMessage ty REJECT_MALFORMED e]
        /\ closeCalls evs = []
        /\ DataChannel.readyState (_conn p') = DataChannel.readyState (_conn p)
        /\ Conn DataChannel.FireClose ∉ evs).
Proof.
  intros Htry. unfold _onMessage. rewrite Htry.
  destruct (confirm_quiet type false (_conn p)) as [Hstate Hevs].
  destruct (DataChannel.confirmExpectedMessage type false (_conn p))
    as [c evs] eqn:Hconf.
  simpl in Hstate, Hevs.
  destruct (conn_events_silent evs) as (Hr & Hc & Hd & Hl).
  assert (Hclose :
    exists p' evs',
      close FAILED_TO_PARSE_MESSAGE_TYPE "Failed to parse message type" (mk c)
        = (p', evs')
      /\ dispatched evs' = []
      /\ closeCalls evs'
           = [(FAILED_TO_PARSE_MESSAGE_TYPE, "Failed to parse message type"%string)]
      /\ rejectsSent evs' = []
      /\ (DataChannel.readyState c = DataChannel.OPEN ->
          DataChannel.readyState (_conn p') = DataChannel.CLOSED)).
  { unfold close, DataChannel.close. cbn [_conn].
    destruct (DataChannel.readyState c) eqn:Hrs; simpl;
      eexists _, _; (split; [reflexivity |]); simpl;
      repeat split; try reflexivity; intros; congruence. }
  destruct Hclose as (pc & evc & Hrun & Hcd & Hcc & Hcr & Hcs).
  destruct type as [ty |]; [destruct (Z.eqb_spec ty REJECT) as [-> | Hne] |].
  - (* a malformed REJECT *)
    rewrite Hrun. eexists _, _. split; [reflexivity |].
    unfold dispatched, closeCalls, rejectsSent in *. simpl.
    rewrite !omap_app, Hd, Hc, Hr, Hcd, Hcc, Hcr. simpl.
    split; [reflexivity |]. split.
    + intros _. split; [reflexivity |]. split; [reflexivity |].
      intros Hopen. apply Hcs. congruence.
    + intros ty [= <-] Habs. congruence.
  - (* a malformed message of another type *)
    unfold reject. eexists _, _. split; [reflexivity |].
    unfold dispatched, closeCalls, rejectsSent in *. simpl.
    rewrite !omap_app, Hd, Hc, Hr. simpl.
    split; [reflexivity |]. split.
    + intros [Habs | Habs]; congruence.
    + intros ty' [= <-] _.
      split; [reflexivity |]. split; [reflexivity |].
      split; [exact Hstate |]. intros Hin.
      rewrite elem_of_cons in Hin. destruct Hin as [Hin | Hin]; [discriminate |].
      rewrite elem_of_app in Hin. destruct Hin as [Hin | Hin].
      * exact (conn_events_no_close evs Hevs Hin).
      * rewrite elem_of_cons in Hin.
        destruct Hin as [Hin | Hin]; [discriminate |].
        exact (not_elem_of_nil _ Hin).
  - (* the type could not be peeked *)
    rewrite Hrun. eexists _, _. split; [reflexivity |].
    unfold dispatched, closeCalls, rejectsSent in *. simpl.
    rewrite !omap_app, Hd, Hc, Hr, Hcd, Hcc, Hcr. simpl.
    split; [reflexivity |]. split.
    + intros _. split; [reflexivity |]. split; [reflexivity |].
      intros Hopen. apply Hcs. congruence.
    + intros ty Habs. discriminate.
Qed.

(** C9, as amended. A successfully parsed message is dispatched to the
    subscribers of its type's event, and neither that nor a subscriber's
    exception closes the channel. When no subscriber throws, one
    ['message-log'] carrying [(msg, elapsedMs, byteLength)] is fired; when a
    subscriber throws, the exception is caught and logged and no
    ['message-log'] is fired for that message. *)
Theorem dispatch_policy (start finish : Z)
    (subscribers : ParsedMessage -> Subscribers)
    (rawMsg : list byte) (p : PeerChannel.t) (type : Z) (msg : ParsedMessage) :
  tryParse rawMsg = Parsed type (Some msg) ->
  exists p' evs,
    _onMessage start finish subscribers rawMsg p = (p', evs)
    /\ dispatched evs = [(messageType msg, msg)]
    /\ closeCalls evs = []
    /\ DataChannel.readyState (_conn p') = DataChannel.readyState (_conn p)
    /\ (subscribers msg = Completed ->
        messageLogs evs = [(msg, finish - start, byteLength rawMsg)])
    /\ (forall e, subscribers msg = Threw e ->
        LogW ∈ evs /\ messageLogs evs = []).
Proof.
  intros Htry. unfold _onMessage. rewrite Htry.
  destruct (confirm_quiet (Some type) true (_conn p)) as [Hstate _].
  destruct (DataChannel.confirmExpectedMessage (Some type) true (_conn p))
    as [c evs] eqn:Hconf.
  simpl in Hstate.
  destruct (conn_events_silent evs) as (Hr & Hc & Hd & Hl).
  unfold dispatched, closeCalls, messageLogs in *.
  destruct (subscribers msg) as [| e] eqn:Hsub;
    eexists _, _; (split; [reflexivity |]);
    rewrite !omap_app, Hd, Hc, Hl; simpl;
    (split; [reflexivity |]); (split; [reflexivity |]);
    (split; [exact Hstate |]); split.
  - intros _. reflexivity.
  - intros e Habs. discriminate.
  - intros Habs. discriminate.
  - intros e' _. split; [| reflexivity].
    rewrite elem_of_app. right.
    rewrite !elem_of_cons. right. left. reflexivity.
Qed.

End WithFactory.

Lemma malformed_policy_witness :
  exists p' evs,
    @_onMessage exampleFactory 3 8 (fun _ => Completed)
      (exampleHeader 10 99 ++ [x01]) (mk DataChannel.new) = (p', evs)
    /\ closeCalls evs
         = [(FAILED_TO_PARSE_MESSAGE_TYPE, "Failed to parse message type"%string)]
    /\ rejectsSent evs = []
    /\ DataChannel.readyState (_conn p') = DataChannel.CLOSED.
Proof.
  destruct (@malformed_policy exampleFactory 3 8 (fun _ => Completed)
              (exampleHeader 10 99 ++ [x01]) (mk DataChannel.new)
              (Some 10) "Malformed length")
    as (p' & evs & Hrun & _ & Hreject & _).
  - vm_compute. reflexivity.
  - destruct Hreject as (Hclose & Hsent & Hclosed); [right; reflexivity |].
    exists p', evs. repeat split; try assumption.
    apply Hclosed. reflexivity.
Defined.

Lemma dispatch_policy_witness :
  exists p' evs,
    @_onMessage exampleFactory 3 8 (fun _ => Completed)
      (exampleHeader 6 15 ++ [x01; x02]) (mk DataChannel.new) = (p', evs)
    /\ dispatched evs = [(6, exampleMessage)]
    /\ closeCalls evs = []
    /\ messageLogs evs = [(exampleMessage, 5, 15)].
Proof.
  destruct (@dispatch_policy exampleFactory 3 8 (fun _ => Completed)
              (exampleHeader 6 15 ++ [x01; x02]) (mk DataChannel.new)
              6 exampleMessage)
    as (p' & evs & Hrun & Hdisp & Hclose & _ & Hlog & _).
  - vm_compute. reflexivity.
  - exists p', evs. repeat split; try assumption.
    apply Hlog. reflexivity.
Defined.

(** C9 as stated fails: when a subscriber throws, the [catch] is entered
    before ['message-log'] is fired, so no ['message-log'] event is fired
    for that successfully parsed message. *)
Lemma dispatch_policy_counterexample :
  @tryParse exampleFactory (exampleHeader 6 15 ++ [x01; x02])
    = @Parsed exampleFactory 6 (Some exampleMessage)
  /\ snd (@_onMessage exampleFactory 3 8 (fun _ => Threw "boom")
            (exampleHeader 6 15 ++ [x01; x02]) (mk DataChannel.new))
     = [@Fire exampleFactory 6 exampleMessage; LogW]
  /\ @messageLogs exampleFactory [@Fire exampleFactory 6 exampleMessage; LogW]
     = [].
Proof.
  repeat split; vm_compute; reflexivity.
Qed.

End PeerFacts.

(** ** More on sending *)

Module ChunkingFacts.
Import DataChannel.
Import SendFacts.
Import ReceiveFacts.

(** What the loop has still to send is what it sends: the range of
    [msg.buffer] that starts at [msg.byteLength - r] and is [r] long. *)
Lemma sendChunkedLoop_payloads msg tag r :
  0 <= r -> r <= byteLength (bytes msg) ->
  concat (map tail (sendChunkedLoop msg tag r))
    = slice (buffer msg) (byteLength (bytes msg) - r) r.
Proof.
  revert r. apply (remaining_ind (fun r =>
    r <= byteLength (bytes msg) ->
    concat (map tail (sendChunkedLoop msg tag r))
      = slice (buffer msg) (byteLength (bytes msg) - r) r)).
  intros r Hr IH Hfit.
  destruct (Z.eq_dec r 0) as [-> | Hne].
  - rewrite sendChunkedLoop_done by lia. reflexivity.
  - pose proof (payloadSize_bounds r ltac:(lia)) as [[Hp0 Hpr] _].
    rewrite sendChunkedLoop_step by lia. simpl.
    rewrite IH by lia.
    replace (byteLength (bytes msg) - (r - payloadSize r))
      with (byteLength (bytes msg) - r + payloadSize r) by lia.
    rewrite slice_app by lia. f_equal. lia.
Qed.

(** The sizes of the chunks of one loop: between 2 and [CHUNK_SIZE_MAX]
    bytes, and [CHUNK_SIZE_MAX] for all but the last. *)
Lemma sendChunkedLoop_sizes msg tag r :
  0 <= r -> r <= byteLength (bytes msg) ->
  Forall (fun chunk => 2 <= byteLength chunk <= CHUNK_SIZE_MAX)
    (sendChunkedLoop msg tag r)
  /\ (forall k chunk,
        sendChunkedLoop msg tag r !! k = Some chunk ->
        (S k < length (sendChunkedLoop msg tag r))%nat ->
        byteLength chunk = CHUNK_SIZE_MAX).
Proof.
  pose proof (byteLength_buffer msg) as Hbuf.
  pose proof (byteLength_nonneg (before msg)) as Hbefore.
  pose proof (byteLength_nonneg (after msg)) as Hafter.
  fold (byteOffset msg) in Hbefore.
  revert r. apply (remaining_ind (fun r =>
    r <= byteLength (bytes msg) ->
    Forall (fun chunk => 2 <= byteLength chunk <= CHUNK_SIZE_MAX)
      (sendChunkedLoop msg tag r)
    /\ (forall k chunk,
          sendChunkedLoop msg tag r !! k = Some chunk ->
          (S k < length (sendChunkedLoop msg tag r))%nat ->
          byteLength chunk = CHUNK_SIZE_MAX))).
  intros r Hr IH Hfit.
  destruct (Z.eq_dec r 0) as [-> | Hne].
  - rewrite sendChunkedLoop_done by lia. split; [constructor |].
    intros k chunk Hk. rewrite lookup_nil in Hk. discriminate.
  - pose proof (payloadSize_bounds r ltac:(lia)) as [[Hp0 Hpr] Hpmax].
    rewrite sendChunkedLoop_step by lia.
    assert (Hlen : byteLength
                     (writeUint8 tag
                        :: slice (buffer msg) (byteLength (bytes msg) - r)
                             (payloadSize r))
                   = 1 + payloadSize r).
    { rewrite byteLength_cons, byteLength_slice by lia. reflexivity. }
    destruct (IH (r - payloadSize r) ltac:(lia) ltac:(lia)) as [IHall IHfull].
    split.
    + constructor; [rewrite Hlen; lia | exact IHall].
    + intros [| k] chunk Hk Hmore.
      * injection Hk as <-. rewrite Hlen.
        destruct (payloadSize_last r ltac:(lia)) as [Hz | Hfull]; [| lia].
        rewrite Hz, sendChunkedLoop_done in Hmore by lia. simpl in Hmore. lia.
      * simpl in Hk, Hmore. apply (IHfull k chunk Hk). lia.
Qed.

(** X1. The buffers [send(msg)] hands to [sendChunk] each start with the
    tag byte, and their payloads, concatenated in order, are the first
    [msg.byteLength] bytes of [msg.buffer]; these are the bytes of [msg]
    when [msg.byteOffset] is 0. *)
Theorem sent_payloads (msg : Uint8Array) (c c' : DataChannel.t)
    (chunks : list (list byte)) :
  send msg c = Some (c', chunks) ->
  concat (map tail chunks) = slice (buffer msg) 0 (byteLength (bytes msg))
  /\ (byteOffset msg = 0 -> concat (map tail chunks) = bytes msg)
  /\ Forall (fun chunk => head chunk = Some (writeUint8 (_sendingTag c))) chunks.
Proof.
  unfold send. destruct (Z.leb_spec (byteLength (bytes msg)) MESSAGE_SIZE_MAX);
    [| discriminate].
  intros [= _ <-]. unfold _sendChunked.
  pose proof (byteLength_nonneg (bytes msg)) as Hnn.
  rewrite sendChunkedLoop_payloads, Z.sub_diag by lia.
  split; [reflexivity |]. split.
  - intros Hoff. rewrite slice_buffer by (try assumption; lia).
    unfold slice. simpl drop. apply take_all.
  - apply (remaining_ind (fun r =>
      Forall (fun chunk => head chunk = Some (writeUint8 (_sendingTag c)))
        (sendChunkedLoop msg (_sendingTag c) r))).
    intros r Hr IH. destruct (Z.eq_dec r 0) as [-> | Hne].
    + rewrite sendChunkedLoop_done by lia. constructor.
    + pose proof (payloadSize_bounds r ltac:(lia)) as [[Hp0 Hpr] _].
      rewrite sendChunkedLoop_step by lia.
      constructor; [reflexivity | apply IH; lia].
    + exact Hnn.
Qed.

Lemma sent_payloads_witness :
  concat (map tail [[x00; x01; x02; x03]])
    = slice (buffer (mkUint8Array [] [x01; x02; x03] [x04]))
        0 (byteLength [x01; x02; x03])
  /\ (byteOffset (mkUint8Array [] [x01; x02; x03] [x04]) = 0 ->
      concat (map tail [[x00; x01; x02; x03]]) = [x01; x02; x03])
  /\ Forall (fun chunk => head chunk = Some (writeUint8 (_sendingTag new)))
       [[x00; x01; x02; x03]].
Proof.
  apply (sent_payloads (mkUint8Array [] [x01; x02; x03] [x04]) new
           (set_sendingTag 1 new)).
  vm_compute. reflexivity.
Defined.

(** X2. Every buffer [send(msg)] hands to [sendChunk] has between 2 and
    [CHUNK_SIZE_MAX] bytes, so the receiving side's size check accepts it
    and it is never a bare tag; all but the last have exactly
    [CHUNK_SIZE_MAX] bytes. *)
Theorem sent_chunk_sizes (msg : Uint8Array) (c c' : DataChannel.t)
    (chunks : list (list byte)) :
  send msg c = Some (c', chunks) ->
  Forall (fun chunk => 2 <= byteLength chunk <= CHUNK_SIZE_MAX) chunks
  /\ (forall k chunk,
        chunks !! k = Some chunk -> (S k < length chunks)%nat ->
        byteLength chunk = CHUNK_SIZE_MAX).
Proof.
  unfold send. destruct (Z.leb_spec (byteLength (bytes msg)) MESSAGE_SIZE_MAX);
    [| discriminate].
  intros [= _ <-]. unfold _sendChunked.
  apply sendChunkedLoop_sizes; pose proof (byteLength_nonneg (bytes msg)); lia.
Qed.

Lemma sent_chunk_sizes_witness :
  Forall (fun chunk => 2 <= byteLength chunk <= CHUNK_SIZE_MAX)
    [[x00; x01; x02; x03]]
  /\ (forall k chunk,
        [[x00; x01; x02; x03]] !! k = Some chunk ->
        (S k < length [[x00; x01; x02; x03]])%nat ->
        byteLength chunk = CHUNK_SIZE_MAX).
Proof.
  apply (sent_chunk_sizes (spanning [x01; x02; x03]) new (set_sendingTag 1 new)).
  vm_compute. reflexivity.
Defined.

(** The tag of a chunk is the channel's tag advanced once per message sent
    before the chunk's message. *)
Lemma sendAll_tags msgs :
  Forall (fun m => byteLength (bytes m) <= MESSAGE_SIZE_MAX) msgs ->
  forall i c k j chunk,
    0 <= _sendingTag c < 255 ->
    sendAll i msgs c !! k = Some (j, chunk) ->
    tagOf chunk = (_sendingTag c + Z.of_nat (j - i)) mod 255.
Proof.
  induction 1 as [| m rest Hm Hrest IH]; intros i c k j chunk Hs Hk.
  { simpl in Hk. rewrite lookup_nil in Hk. discriminate. }
  simpl in Hk. rewrite (send_some m c Hm) in Hk.
  change (map (pair i) ?l) with (pair i <$> l) in Hk.
  apply lookup_app_Some in Hk. destruct Hk as [Hk | [_ Hk]].
  - rewrite list_lookup_fmap in Hk.
    destruct (_sendChunked m (_sendingTag c) !! k) as [ch |] eqn:E;
      simpl in Hk; [| discriminate].
    injection Hk as <- <-.
    pose proof (sendChunkedLoop_tags m (_sendingTag c) (byteLength (bytes m))
                  ltac:(lia)) as Htags.
    rewrite Forall_lookup in Htags. rewrite (Htags k ch E).
    rewrite Nat.sub_diag, Z.add_0_r, Z.mod_small by lia. reflexivity.
  - pose proof (sendAll_index _ _ _ _ _ _ Hk) as Hidx.
    set (c' := set_sendingTag _ c) in Hk.
    assert (Hs' : _sendingTag c' = (_sendingTag c + 1) mod 255)
      by (unfold c'; simpl; apply next_tag_mod; lia).
    assert (Hr' : 0 <= _sendingTag c' < 255)
      by (rewrite Hs'; apply Z.mod_pos_bound; lia).
    rewrite (IH _ _ _ _ _ Hr' Hk), Hs'.
    rewrite Zplus_mod_idemp_l. f_equal. lia.
Qed.

(** X3. When every message handed to [send] respects [MESSAGE_SIZE_MAX],
    each chunk of the [i]-th message sent by a channel since its
    construction (counting from 0) carries the tag [i mod 255]. *)
Theorem nth_message_tag (msgs : list Uint8Array) (k i : nat)
    (chunk : list byte) :
  Forall (fun m => byteLength (bytes m) <= MESSAGE_SIZE_MAX) msgs ->
  sendAll 0 msgs new !! k = Some (i, chunk) ->
  tagOf chunk = Z.of_nat i mod 255.
Proof.
  intros Hall Hk.
  rewrite (sendAll_tags msgs Hall 0%nat new k i chunk ltac:(simpl; lia) Hk).
  simpl. f_equal. lia.
Qed.

Lemma nth_message_tag_witness : tagOf [x02; x09] = Z.of_nat 2 mod 255.
Proof.
  apply (nth_message_tag [spanning [x07]; spanning []; spanning [x09]] 1 2
           [x02; x09]).
  - repeat constructor; vm_compute; discriminate.
  - vm_compute. reflexivity.
Defined.

Section WithProtocol.
Context `{Protocol}.

Lemma receive_app now l1 l2 c :
  receive now (l1 ++ l2) c =
    let '(c1, e1) := receive now l1 c in
    let '(c2, e2) := receive now l2 c1 in
    (c2, e1 ++ e2).
Proof.
  revert c. induction l1 as [| f l1 IH]; intros c; simpl.
  - destruct (receive now l2 c). reflexivity.
  - destruct (_onMessage now f c) as [c0 e0]. rewrite IH.
    destruct (receive now l1 c0) as [c1 e1].
    destruct (receive now l2 c1) as [c2 e2].
    rewrite app_assoc. reflexivity.
Qed.

(** Whatever the sender's and the receiver's tags, as long as they agree. *)
Lemma ordered_delivery_from now msgs :
  Forall (fun m => byteOffset m = 0
                   /\ byteLength (bytes m) <= MESSAGE_SIZE_MAX
                   /\ Message.peekLength (bytes m)
                        = Some (byteLength (bytes m))) msgs ->
  forall i sender receiver,
    0 <= _sendingTag sender < 255 ->
    readyState receiver = OPEN ->
    _buffer receiver = None ->
    Z.rem (_receivingTag receiver + 1) NumberUtils.UINT8_MAX
      = _sendingTag sender ->
    exists receiver' evs,
      receive now (map snd (sendAll i msgs sender)) receiver = (receiver', evs)
      /\ messagesFired evs = map bytes msgs
      /\ errorsFired evs = []
      /\ readyState receiver' = OPEN
      /\ _buffer receiver' = None.
Proof.
  induction 1 as [| m rest (Hoff & Hmax & Hlen) Hrest IH];
    intros i sender receiver Hs Hopen Hidle Hagree.
  { exists receiver, []. repeat split; assumption. }
  simpl. rewrite (send_some m sender Hmax).
  rewrite map_app, map_map. simpl. rewrite map_id.
  destruct (receive_fresh_message now m (_sendingTag sender) receiver)
    as (r1 & e1 & Hrecv & Hmsgs & Herrs & Hidle1 & Hopen1 & Hrt1);
    try assumption; [congruence | lia |].
  set (sender' := set_sendingTag _ sender).
  destruct (IH (S i) sender' r1) as (r2 & e2 & Hrecv2 & Hmsgs2 & Herrs2 & Ho2 & Hb2).
  - unfold sender'. simpl. rewrite next_tag_mod by lia.
    apply Z.mod_pos_bound. lia.
  - exact Hopen1.
  - exact Hidle1.
  - rewrite Hrt1. reflexivity.
  - exists r2, (e1 ++ e2). rewrite receive_app, Hrecv, Hrecv2.
    unfold messagesFired, errorsFired in *.
    rewrite !omap_app, Hmsgs, Hmsgs2, Herrs, Herrs2.
    repeat split; assumption.
Qed.

(** X4. Framed messages (each a [Uint8Array] at [byteOffset] 0, within
    [MESSAGE_SIZE_MAX] and declaring its own length) sent one after the
    other by a fresh channel and delivered in order to a fresh open channel
    fire one ['message'] per message, with the bytes of the message and in
    the order sent, and no ['error']; the receiver ends open and idle. This
    holds for any number of messages, across the wrap of the tag. *)
Theorem ordered_delivery (now : Z) (msgs : list Uint8Array) :
  Forall (fun m => byteOffset m = 0
                   /\ byteLength (bytes m) <= MESSAGE_SIZE_MAX
                   /\ Message.peekLength (bytes m)
                        = Some (byteLength (bytes m))) msgs ->
  exists receiver' evs,
    receive now (map snd (sendAll 0 msgs new)) new = (receiver', evs)
    /\ messagesFired evs = map bytes msgs
    /\ errorsFired evs = []
    /\ readyState receiver' = OPEN
    /\ _buffer receiver' = None.
Proof.
  intros Hall.
  apply (ordered_delivery_from now msgs Hall 0%nat new new);
    try reflexivity. simpl. lia.
Qed.

End WithProtocol.

Lemma ordered_delivery_witness :
  exists receiver' evs,
    @receive exampleProtocol 7
      (map snd (sendAll 0 [spanning (exampleHeader 6 15 ++ [x01; x02]);
                           mkUint8Array [] (exampleHeader 14 13) [x09]] new))
      new
      = (receiver', evs)
    /\ messagesFired evs
         = [exampleHeader 6 15 ++ [x01; x02]; exampleHeader 14 13]
    /\ errorsFired evs = []
    /\ readyState receiver' = OPEN
    /\ _buffer receiver' = None.
Proof.
  apply (@ordered_delivery exampleProtocol 7
           [spanning (exampleHeader 6 15 ++ [x01; x02]);
            mkUint8Array [] (exampleHeader 14 13) [x09]]).
  repeat constructor; try (vm_compute; discriminate); vm_compute; reflexivity.
Defined.

End ChunkingFacts.

(** ** More on receiving *)

Module FrameFacts.
Import DataChannel.
Import SendFacts.
Import ReceiveFacts.
Import ExpectFacts.

(** Follows [_onMessage] down every branch. *)
Ltac follow_onMessage :=
  unfold _onMessage, detectNewMessage, writeChunk, _error, close, _onClose;
  repeat (simpl in *;
          match goal with
          | H : readyState ?c = _ |- context [readyState ?c] => rewrite H
          | |- context [match ?x with _ => _ end] =>
              lazymatch x with
              | context [match _ with _ => _ end] => fail
              | _ => destruct x eqn:?
              end
          end).

Section WithProtocol.
Context `{Protocol}.

Lemma receive_not_open now frames c :
  readyState c <> OPEN -> receive now frames c = (c, []).
Proof.
  intros Hclosed. induction frames as [| f frames IH]; [reflexivity |].
  simpl. unfold _onMessage.
  destruct (readyState c); try congruence; simpl; rewrite IH; reflexivity.
Qed.

(** X5. A channel that is not open (connecting, closing or closed) drops
    every frame it is handed: whatever the frames, tags and sizes, nothing
    is fired, not even ['error'], and the state does not change. *)
Theorem not_open_drops_frames (now : Z) (frames : list (list byte))
    (c : DataChannel.t) :
  readyState c <> OPEN ->
  receive now frames c = (c, [])
  /\ (forall f, _onMessage now f c = (c, [])).
Proof.
  intros Hclosed. split; [apply receive_not_open; exact Hclosed |].
  intros f. unfold _onMessage.
  destruct (readyState c); try congruence; reflexivity.
Qed.

(** X6. On an open channel a frame either fires no ['error'] and leaves
    the channel open, without a ['close'], or fires exactly
    [error, close], delivers no message, leaves the channel closed with all
    timers cleared, and every later frame is dropped in silence. *)
Theorem error_closes_for_good (now : Z) (frame : list byte)
    (c : DataChannel.t) :
  readyState c = OPEN ->
  exists c' evs,
    _onMessage now frame c = (c', evs)
    /\ ((errorsFired evs = [] /\ readyState c' = OPEN /\ FireClose ∉ evs)
        \/ (exists e,
              evs = [FireError e; LogError; FireClose]
              /\ readyState c' = CLOSED
              /\ _timers c' = ∅
              /\ forall now' frames, receive now' frames c' = (c', []))).
Proof.
  intros Hopen.
  assert (Hquiet : forall e : Event, e <> FireClose -> FireClose ∉ [e]).
  { intros e He Hin. apply list_elem_of_singleton in Hin. congruence. }
  follow_onMessage; eexists _, _; (split; [reflexivity |]);
    first
      [ left; split; [reflexivity |]; split; [simpl; assumption |];
        first [ apply not_elem_of_nil | apply Hquiet; discriminate ]
      | right; eexists; split; [reflexivity |]; split; [reflexivity |];
        split; [reflexivity |]; intros; apply receive_not_open;
        simpl; discriminate ].
Qed.

(** X7. While a message is being assembled, a frame of admissible size
    whose tag is not the tag of that message fires ['error'] and closes the
    channel, also when it carries the tag that would start the next
    message; the partial message is never delivered. *)
Theorem interleaved_tag_closes (now : Z) (t : byte) (chunk : list byte)
    (c : DataChannel.t) (buf : SerialBuffer) :
  readyState c = OPEN ->
  _buffer c = Some buf ->
  byteLength (t :: chunk) <= CHUNK_SIZE_MAX ->
  readUint8 t <> _receivingTag c ->
  exists c',
    _onMessage now (t :: chunk) c
      = (c', [FireError (WrongMessageTag (readUint8 t) (_receivingTag c));
              LogError; FireClose])
    /\ readyState c' = CLOSED
    /\ _buffer c' = Some buf.
Proof.
  intros Hopen Hbuf Hsize Htag.
  rewrite (onMessage_assembling now t chunk c buf Hopen Hbuf Hsize).
  unfold writeChunk. rewrite Hbuf.
  destruct (Z.eqb_spec (readUint8 t) (_receivingTag c)); [contradiction |].
  simpl negb. cbv iota.
  destruct (error_closes (WrongMessageTag (readUint8 t) (_receivingTag c)) c Hopen)
    as (c' & Herr & Hclosed & Hkeep).
  exists c'. rewrite Herr. repeat split; congruence.
Qed.

(** X8. While a message is being assembled, a frame with the message's
    tag that holds more bytes than the message still lacks fires
    ['error'] and closes the channel; nothing of it is written. *)
Theorem overrun_closes (now : Z) (t : byte) (chunk : list byte)
    (c : DataChannel.t) (buf : SerialBuffer) :
  readyState c = OPEN ->
  _buffer c = Some buf ->
  byteLength (t :: chunk) <= CHUNK_SIZE_MAX ->
  readUint8 t = _receivingTag c ->
  capacity buf - writePos buf < byteLength chunk ->
  exists c',
    _onMessage now (t :: chunk) c
      = (c', [FireError ChunkLargerThanRemaining; LogError; FireClose])
    /\ readyState c' = CLOSED
    /\ _buffer c' = Some buf.
Proof.
  intros Hopen Hbuf Hsize Htag Hover.
  rewrite (onMessage_assembling now t chunk c buf Hopen Hbuf Hsize).
  unfold writeChunk. rewrite Hbuf, Htag, Z.eqb_refl.
  simpl negb. cbv iota. settle_tests.
  destruct (error_closes ChunkLargerThanRemaining c Hopen)
    as (c' & Herr & Hclosed & Hkeep).
  exists c'. rewrite Herr. repeat split; congruence.
Qed.


(** X10. [_onMessage] never touches the expectations: whatever the frame
    and the state, the map of expected messages and the sending tag are as
    before, no timeout callback is invoked and nothing is sent; while the
    channel stays open no [msg-<id>] timer changes; and when ['message'] is
    fired no timer changes at all and the channel is idle again. *)
Theorem receiving_keeps_expectations (now : Z) (frame : list byte)
    (c c' : DataChannel.t) (evs : list Event) :
  _onMessage now frame c = (c', evs) ->
  _expectedMessagesByType c' = _expectedMessagesByType c
  /\ _sendingTag c' = _sendingTag c
  /\ callbacksInvoked evs = []
  /\ (forall chunk, SendChunk chunk ∉ evs)
  /\ (readyState c' = OPEN ->
      forall e, _timers c' !! msgKey e = _timers c !! msgKey e)
  /\ (forall m, FireMessage m ∈ evs ->
      _timers c' = _timers c /\ _buffer c' = None).
Proof.
  intros Hrun. revert Hrun.
  follow_onMessage; intros [= <- <-]; simpl;
    (split; [reflexivity |]); (split; [reflexivity |]);
    (split; [reflexivity |]); split;
    try (intros chunk Hin; repeat (rewrite elem_of_cons in Hin);
         rewrite elem_of_nil in Hin; intuition discriminate);
    split;
    try (intros Habs; discriminate);
    try (intros m Hin; repeat (rewrite elem_of_cons in Hin);
         rewrite elem_of_nil in Hin;
         first [ exfalso; intuition discriminate | split; reflexivity ]);
    try (intros _ e; reflexivity).
  all: intros _ e'; unfold resetTimeout, clearTimeout;
    rewrite lookup_insert_ne, lookup_delete_ne;
    [reflexivity | apply chunkKey_msgKey | apply chunkKey_msgKey].
Qed.

End WithProtocol.

Lemma not_open_drops_frames_witness :
  @receive exampleProtocol 7 [[x00; x01]; []] (set_readyState CLOSING new)
    = (set_readyState CLOSING new, [])
  /\ (forall f, @_onMessage exampleProtocol 7 f (set_readyState CLOSING new)
                = (set_readyState CLOSING new, [])).
Proof.
  apply (@not_open_drops_frames exampleProtocol 7 [[x00; x01]; []]
           (set_readyState CLOSING new)).
  simpl. discriminate.
Defined.

Lemma error_closes_for_good_witness :
  exists c' evs,
    @_onMessage exampleProtocol 7 [x00; x01; x02; x03] new = (c', evs)
    /\ ((errorsFired evs = [] /\ readyState c' = OPEN /\ FireClose ∉ evs)
        \/ (exists e,
              evs = [FireError e; LogError; FireClose]
              /\ readyState c' = CLOSED
              /\ _timers c' = ∅
              /\ forall now' frames,
                   @receive exampleProtocol now' frames c' = (c', []))).
Proof.
  apply (@error_closes_for_good exampleProtocol 7 [x00; x01; x02; x03] new).
  reflexivity.
Defined.

Lemma interleaved_tag_closes_witness :
  exists c',
    @_onMessage exampleProtocol 7 [x01; x07]
      (fst (@_onMessage exampleProtocol 7 (x00 :: exampleHeader 6 99) new))
    = (c', [FireError (WrongMessageTag 1 0); LogError; FireClose])
    /\ readyState c' = CLOSED
    /\ _buffer c' = Some (mkSerialBuffer 99 (exampleHeader 6 99)).
Proof.
  apply (@interleaved_tag_closes exampleProtocol 7 x01 [x07]
           (fst (@_onMessage exampleProtocol 7 (x00 :: exampleHeader 6 99) new))
           (mkSerialBuffer 99 (exampleHeader 6 99))).
  - vm_compute. reflexivity.
  - vm_compute. reflexivity.
  - vm_compute. discriminate.
  - vm_compute. discriminate.
Defined.

Lemma overrun_closes_witness :
  exists c',
    @_onMessage exampleProtocol 7 (x00 :: repeat x07 90)
      (fst (@_onMessage exampleProtocol 7 (x00 :: exampleHeader 6 99) new))
    = (c', [FireError ChunkLargerThanRemaining; LogError; FireClose])
    /\ readyState c' = CLOSED
    /\ _buffer c' = Some (mkSerialBuffer 99 (exampleHeader 6 99)).
Proof.
  apply (@overrun_closes exampleProtocol 7 x00 (repeat x07 90)
           (fst (@_onMessage exampleProtocol 7 (x00 :: exampleHeader 6 99) new))
           (mkSerialBuffer 99 (exampleHeader 6 99))).
  - vm_compute. reflexivity.
  - vm_compute. reflexivity.
  - vm_compute. discriminate.
  - vm_compute. reflexivity.
  - vm_compute. reflexivity.
Defined.


Lemma receiving_keeps_expectations_witness :
  _expectedMessagesByType
    (fst (@_onMessage exampleProtocol 7 (x00 :: exampleHeader 6 13)
            (expectMessage (OneType 6) 0%nat None None new)))
  = _expectedMessagesByType (expectMessage (OneType 6) 0%nat None None new).
Proof.
  destruct (@receiving_keeps_expectations exampleProtocol 7
              (x00 :: exampleHeader 6 13)
              (expectMessage (OneType 6) 0%nat None None new)
              (fst (@_onMessage exampleProtocol 7 (x00 :: exampleHeader 6 13)
                      (expectMessage (OneType 6) 0%nat None None new)))
              [FireMessage (exampleHeader 6 13)])
    as (Hmap & _).
  - vm_compute. reflexivity.
  - exact Hmap.
Defined.

End FrameFacts.

(** ** Invariants of a channel in use *)

Module SessionFacts.
Import DataChannel.
Import Session.
Import SendFacts.
Import ReceiveFacts.
Import ExpectFacts.
Import FrameFacts.

Lemma readUint32_nonneg b0 b1 b2 b3 : 0 <= readUint32 b0 b1 b2 b3.
Proof.
  unfold readUint32.
  pose proof (readUint8_range b0). pose proof (readUint8_range b1).
  pose proof (readUint8_range b2). pose proof (readUint8_range b3).
  repeat (apply Z.lor_nonneg; split); try apply Z.shiftl_nonneg; lia.
Qed.

Lemma next_tag_range s :
  -1 <= s < 255 -> 0 <= Z.rem (s + 1) NumberUtils.UINT8_MAX < 255.
Proof.
  intros Hs. rewrite next_tag_mod by lia. apply Z.mod_pos_bound. lia.
Qed.

Section WithProtocol.
Context `{Protocol}.

Lemma peekLength_nonneg buf n : Message.peekLength buf = Some n -> 0 <= n.
Proof.
  unfold Message.peekLength.
  do 9 (destruct buf as [| ? buf]; [discriminate |]).
  destruct (_ =? MAGIC); [| discriminate].
  intros [= <-]. apply readUint32_nonneg.
Qed.

(** Delivering a frame keeps the tags in range and the buffer within its
    bounds, and a message it fires is as long as its buffer was. *)
Lemma deliver_keeps_bounds now frame c c' evs :
  _onMessage now frame c = (c', evs) ->
  -1 <= _receivingTag c < 255 ->
  (forall b, _buffer c = Some b -> writePos b <= capacity b <= MESSAGE_SIZE_MAX) ->
  -1 <= _receivingTag c' < 255
  /\ (forall b, _buffer c' = Some b ->
        writePos b <= capacity b <= MESSAGE_SIZE_MAX)
  /\ (forall m, FireMessage m ∈ evs -> byteLength m <= MESSAGE_SIZE_MAX).
Proof.
  intros Hrun Hrt Hbuf. revert Hrun.
  follow_onMessage; intros [= <- <-]; simpl;
    repeat match goal with
    | E : (_ >? _) = false |- _ => rewrite Z.gtb_ltb in E; apply Z.ltb_ge in E
    | E : (_ =? _) = false |- _ => apply Z.eqb_neq in E
    | E : (_ =? _) = true |- _ => apply Z.eqb_eq in E
    | E : (_ && _) = true |- _ => apply andb_prop in E; destruct E
    | E : negb _ = false |- _ => apply negb_false_iff in E
    | E : Message.peekLength _ = Some _ |- _ => apply peekLength_nonneg in E
    | Hb : forall b, Some ?s = Some b -> _ |- _ =>
        pose proof (Hb s eq_refl); clear Hb
    end;
    pose proof (next_tag_range _ Hrt);
    unfold writePos in *; simpl in *; rewrite ?byteLength_app in *;
    change (byteLength []) with 0 in *;
    (split; [lia |]); split;
    try exact Hbuf;
    try (intros b' Hb';
         first [ discriminate
               | injection Hb' as <-; simpl; rewrite ?byteLength_app;
                 change (byteLength []) with 0; lia
               | match goal with
                 | E : _buffer c = Some ?s, Hs : _ <= capacity ?s <= _ |- _ =>
                     replace b' with s by congruence; exact Hs
                 end
               | congruence ]);
    try (intros m Hin; repeat (rewrite elem_of_cons in Hin);
         rewrite elem_of_nil in Hin;
         first [ exfalso; intuition discriminate
               | destruct Hin as [[= ->] | []];
                 rewrite ?byteLength_app; change (byteLength []) with 0; lia ]).
Qed.

(** Delivering a frame sends nothing and leaves the sending tag alone. *)
Lemma deliver_sends_nothing now frame c c' evs :
  _onMessage now frame c = (c', evs) ->
  _sendingTag c' = _sendingTag c
  /\ (forall chunk, SendChunk chunk ∉ evs).
Proof.
  intros Hrun. revert Hrun.
  follow_onMessage; intros [= <- <-]; simpl; (split; [reflexivity |]);
    intros chunk Hin; repeat (rewrite elem_of_cons in Hin);
    rewrite elem_of_nil in Hin; intuition discriminate.
Qed.

(** One operation keeps the tags in range and the buffer within its
    bounds; what it delivers and what it sends is bounded accordingly. *)
Lemma step_keeps_bounds op c c' evs :
  step op c = (c', evs) ->
  0 <= _sendingTag c < 255 ->
  -1 <= _receivingTag c < 255 ->
  (forall b, _buffer c = Some b -> writePos b <= capacity b <= MESSAGE_SIZE_MAX) ->
  0 <= _sendingTag c' < 255
  /\ -1 <= _receivingTag c' < 255
  /\ (forall b, _buffer c' = Some b ->
        writePos b <= capacity b <= MESSAGE_SIZE_MAX)
  /\ (forall m, FireMessage m ∈ evs -> byteLength m <= MESSAGE_SIZE_MAX)
  /\ (forall chunk, SendChunk chunk ∈ evs -> 0 <= tagOf chunk < 255).
Proof.
  intros Hstep Hs Hrt Hbuf.
  assert (Hnoevent : forall (l : list Event),
            Forall (fun e => match e with
                             | FireMessage _ | SendChunk _ => False
                             | _ => True
                             end) l ->
            (forall m, FireMessage m ∈ l -> byteLength m <= MESSAGE_SIZE_MAX)
            /\ (forall chunk, SendChunk chunk ∈ l -> 0 <= tagOf chunk < 255)).
  { intros l Hl. rewrite Forall_forall in Hl.
    split; intros x Hin; destruct (Hl _ Hin). }
  destruct op; simpl in Hstep.
  - (* a frame *)
    destruct (deliver_keeps_bounds _ _ _ _ _ Hstep Hrt Hbuf) as (Hrt' & Hbuf' & Hm).
    destruct (deliver_sends_nothing _ _ _ _ _ Hstep) as (Hs' & Hnone).
    rewrite Hs'. split; [exact Hs |]. split; [exact Hrt' |].
    split; [exact Hbuf' |]. split; [exact Hm |].
    intros chunk Hin. destruct (Hnone _ Hin).
  - (* send *)
    unfold send in Hstep.
    destruct (byteLength (bytes msg) <=? MESSAGE_SIZE_MAX); injection Hstep as <- <-.
    + pose proof (next_tag_range (_sendingTag c) ltac:(lia)) as Hnext.
      simpl. split; [exact Hnext |]. split; [exact Hrt |].
      split; [exact Hbuf |]. split.
      * intros m Hin. apply list_elem_of_fmap in Hin.
        destruct Hin as (ch & Habs & _). discriminate.
      * intros chunk Hin. apply list_elem_of_fmap in Hin.
        destruct Hin as (ch & [= ->] & Hin).
        pose proof (sendChunkedLoop_tags msg (_sendingTag c) (byteLength (bytes msg))
                      ltac:(lia)) as Htags.
        rewrite Forall_forall in Htags.
        unfold _sendChunked in Hin. rewrite (Htags ch Hin). lia.
    + split; [exact Hs |]. split; [exact Hrt |]. split; [exact Hbuf |].
      apply Hnoevent. constructor.
  - (* expectMessage *)
    injection Hstep as <- <-.
    assert (Hsame : _sendingTag (expectMessage tys cb msgT chunkT c) = _sendingTag c
                    /\ _receivingTag (expectMessage tys cb msgT chunkT c)
                       = _receivingTag c
                    /\ _buffer (expectMessage tys cb msgT chunkT c) = _buffer c).
    { unfold expectMessage. destruct (length _ =? 0)%nat; repeat split. }
    destruct Hsame as (-> & -> & ->).
    split; [exact Hs |]. split; [exact Hrt |]. split; [exact Hbuf |].
    apply Hnoevent. constructor.
  - (* confirmExpectedMessage *)
    unfold confirmExpectedMessage in Hstep.
    destruct (type ≫= _); [destruct success |]; injection Hstep as <- <-;
      simpl; (split; [exact Hs |]); (split; [exact Hrt |]);
      (split; [exact Hbuf |]); apply Hnoevent; repeat constructor.
  - (* a timer *)
    unfold timerExpires, _onTimeout in Hstep.
    destruct (_timers c !! key); injection Hstep as <- <-;
      simpl; (split; [exact Hs |]); (split; [exact Hrt |]);
      (split; [first [exact Hbuf | discriminate] |]);
      apply Hnoevent; repeat constructor.
  - (* close *)
    unfold close, _onClose in Hstep.
    destruct (readyState c); injection Hstep as <- <-;
      simpl; (split; [exact Hs |]); (split; [exact Hrt |]);
      (split; [exact Hbuf |]); apply Hnoevent; repeat constructor.
Qed.

Lemma run_keeps_bounds ops :
  forall c c' evs,
    run ops c = (c', evs) ->
    0 <= _sendingTag c < 255 ->
    -1 <= _receivingTag c < 255 ->
    (forall b, _buffer c = Some b ->
       writePos b <= capacity b <= MESSAGE_SIZE_MAX) ->
    0 <= _sendingTag c' < 255
    /\ -1 <= _receivingTag c' < 255
    /\ (forall b, _buffer c' = Some b ->
          writePos b <= capacity b <= MESSAGE_SIZE_MAX)
    /\ (forall m, FireMessage m ∈ evs -> byteLength m <= MESSAGE_SIZE_MAX)
    /\ (forall chunk, SendChunk chunk ∈ evs -> 0 <= tagOf chunk < 255).
Proof.
  induction ops as [| op ops IH]; intros c c' evs Hrun Hs Hrt Hbuf.
  - injection Hrun as <- <-.
    split; [exact Hs |]. split; [exact Hrt |]. split; [exact Hbuf |].
    split; intros x Hin; destruct (not_elem_of_nil _ Hin).
  - simpl in Hrun. destruct (step op c) as [c1 e1] eqn:Hstep.
    destruct (run ops c1) as [c2 e2] eqn:Hrest. injection Hrun as <- <-.
    destruct (step_keeps_bounds _ _ _ _ Hstep Hs Hrt Hbuf)
      as (Hs1 & Hrt1 & Hbuf1 & Hm1 & Hc1).
    destruct (IH _ _ _ Hrest Hs1 Hrt1 Hbuf1) as (Hs2 & Hrt2 & Hbuf2 & Hm2 & Hc2).
    split; [exact Hs2 |]. split; [exact Hrt2 |]. split; [exact Hbuf2 |].
    split; intros x Hin; apply elem_of_app in Hin; destruct Hin; auto.
Qed.

(** X11. Whatever is done to a channel after its construction (frames
    delivered, messages sent, expectations set and confirmed, timers
    expiring, close), its sending tag stays within 0..254 and its receiving
    tag within -1..254, and every chunk it sends carries a tag within
    0..254: the tag 255 is never used. *)
Theorem tags_stay_below_255 (ops : list Op) :
  0 <= _sendingTag (fst (run ops new)) <= 254
  /\ -1 <= _receivingTag (fst (run ops new)) <= 254
  /\ (forall chunk, SendChunk chunk ∈ snd (run ops new) ->
        0 <= tagOf chunk <= 254).
Proof.
  destruct (run ops new) as [c' evs] eqn:Hrun.
  destruct (run_keeps_bounds ops new c' evs Hrun)
    as (Hs & Hrt & _ & _ & Hc); simpl; try lia; try discriminate.
  split; [lia |]. split; [lia |].
  intros chunk Hin. pose proof (Hc _ Hin). lia.
Qed.

(** X12. Whatever is done to a channel after its construction, its
    reassembly buffer is never declared larger than [MESSAGE_SIZE_MAX] nor
    written past its end, and no ['message'] it fires is longer than
    [MESSAGE_SIZE_MAX]. *)
Theorem reassembly_is_bounded (ops : list Op) :
  (forall b, _buffer (fst (run ops new)) = Some b ->
     writePos b <= capacity b <= MESSAGE_SIZE_MAX)
  /\ (forall m, FireMessage m ∈ snd (run ops new) ->
        byteLength m <= MESSAGE_SIZE_MAX).
Proof.
  destruct (run ops new) as [c' evs] eqn:Hrun.
  destruct (run_keeps_bounds ops new c' evs Hrun)
    as (_ & _ & Hbuf & Hm & _); simpl; try lia; try discriminate.
  split; assumption.
Qed.

(** What delivering a frame can do to the expectations and the timers. *)
Lemma deliver_timers now frame c c' evs :
  _onMessage now frame c = (c', evs) ->
  _expectedMessagesByType c' = _expectedMessagesByType c
  /\ (_timers c' = _timers c
      \/ _timers c' = ∅
      \/ exists e, _timers c'
                   = resetTimeout (chunkKey e) e (chunkTimeout e) (_timers c)).
Proof.
  intros Hrun. revert Hrun.
  follow_onMessage; intros [= <- <-]; simpl; (split; [reflexivity |]);
    first [ left; reflexivity | right; left; reflexivity
          | right; right; eexists; reflexivity ].
Qed.

(** One operation keeps every entry of the map under one of its own types
    and every timer under one of the two keys of the expectation it is
    bound to. *)
Lemma step_keeps_filing op c c' evs :
  step op c = (c', evs) ->
  (forall ty e, _expectedMessagesByType c !! ty = Some e -> ty ∈ types e) ->
  (forall k tm, _timers c !! k = Some tm ->
     k = chunkKey (boundTo tm) \/ k = msgKey (boundTo tm)) ->
  (forall ty e, _expectedMessagesByType c' !! ty = Some e -> ty ∈ types e)
  /\ (forall k tm, _timers c' !! k = Some tm ->
        k = chunkKey (boundTo tm) \/ k = msgKey (boundTo tm)).
Proof.
  intros Hstep Hmap Htm.
  assert (Hreset : forall e d (tm0 : gmap string Timer) k tm,
            (forall k tm, tm0 !! k = Some tm ->
               k = chunkKey (boundTo tm) \/ k = msgKey (boundTo tm)) ->
            (resetTimeout (chunkKey e) e d tm0 !! k = Some tm ->
               k = chunkKey (boundTo tm) \/ k = msgKey (boundTo tm))
            /\ (resetTimeout (msgKey e) e d tm0 !! k = Some tm ->
                  k = chunkKey (boundTo tm) \/ k = msgKey (boundTo tm))).
  { intros e d tm0 k tm Hold. unfold resetTimeout, clearTimeout.
    split; intros Hk; apply lookup_insert_Some in Hk;
      destruct Hk as [[<- <-] | [Hne Hk]]; simpl; auto;
      apply lookup_delete_Some in Hk; destruct Hk as [_ Hk]; eauto. }
  assert (Hclear : forall e (tm0 : gmap string Timer) k tm,
            clearTimeout (msgKey e) (clearTimeout (chunkKey e) tm0) !! k = Some tm ->
            tm0 !! k = Some tm).
  { intros e tm0 k tm Hk. unfold clearTimeout in Hk.
    apply lookup_delete_Some in Hk. destruct Hk as [_ Hk].
    apply lookup_delete_Some in Hk. destruct Hk as [_ Hk]. exact Hk. }
  assert (Hdelete : forall tys (m : gmap Z ExpectedMessage) ty e,
            deleteAll tys m !! ty = Some e -> m !! ty = Some e).
  { intros tys m ty e Hk. rewrite deleteAll_lookup in Hk.
    destruct (bool_decide (ty ∈ tys)); [discriminate | exact Hk]. }
  destruct op; simpl in Hstep.
  - (* a frame *)
    destruct (deliver_timers _ _ _ _ _ Hstep) as (Hsame & Hcases).
    rewrite Hsame. split; [exact Hmap |].
    destruct Hcases as [-> | [-> | [e ->]]]; [exact Htm | |].
    + intros k tm Hk. rewrite lookup_empty in Hk. discriminate.
    + intros k tm Hk.
      exact (proj1 (Hreset e (chunkTimeout e) (_timers c) k tm Htm) Hk).
  - (* send *)
    unfold send in Hstep.
    destruct (byteLength (bytes msg) <=? MESSAGE_SIZE_MAX); injection Hstep as <- <-;
      split; assumption.
  - (* expectMessage *)
    injection Hstep as <- <-. unfold expectMessage.
    destruct (length _ =? 0)%nat; [split; assumption |].
    simpl. split.
    + intros ty e Hk. rewrite setAll_lookup in Hk.
      destruct (bool_decide (ty ∈ _)) eqn:Hin; [| exact (Hmap _ _ Hk)].
      injection Hk as <-. simpl. apply bool_decide_eq_true in Hin. exact Hin.
    + intros k tm Hk.
      refine (proj2 (Hreset _ _ _ k tm _) Hk).
      intros k' tm' Hk'. exact (proj1 (Hreset _ _ _ k' tm' Htm) Hk').
  - (* confirmExpectedMessage *)
    unfold confirmExpectedMessage in Hstep.
    destruct (type ≫= _) as [e |]; [| injection Hstep as <- <-; split; assumption].
    assert (Hc' : c' = set_expected
                         (deleteAll (types e) (_expectedMessagesByType c))
                         (set_timers (clearTimeout (msgKey e)
                                        (clearTimeout (chunkKey e) (_timers c))) c))
      by (destruct success; injection Hstep as <- _; reflexivity).
    rewrite Hc'. simpl. split.
    + intros ty e' Hk. exact (Hmap _ _ (Hdelete _ _ _ _ Hk)).
    + intros k tm Hk. exact (Htm _ _ (Hclear _ _ _ _ Hk)).
  - (* a timer *)
    unfold timerExpires, _onTimeout in Hstep.
    destruct (_timers c !! key) as [tm0 |];
      injection Hstep as <- <-; [| split; assumption].
    simpl. split.
    + intros ty e' Hk. exact (Hmap _ _ (Hdelete _ _ _ _ Hk)).
    + intros k tm Hk. exact (Htm _ _ (Hclear _ _ _ _ Hk)).
  - (* close *)
    unfold close, _onClose in Hstep.
    destruct (readyState c); injection Hstep as <- <-; simpl;
      (split; [exact Hmap |]); try exact Htm;
      intros k tm Hk; unfold clearAll in Hk; rewrite lookup_empty in Hk;
      discriminate.
Qed.

Lemma run_keeps_filing ops :
  forall c c' evs,
    run ops c = (c', evs) ->
    (forall ty e, _expectedMessagesByType c !! ty = Some e -> ty ∈ types e) ->
    (forall k tm, _timers c !! k = Some tm ->
       k = chunkKey (boundTo tm) \/ k = msgKey (boundTo tm)) ->
    (forall ty e, _expectedMessagesByType c' !! ty = Some e -> ty ∈ types e)
    /\ (forall k tm, _timers c' !! k = Some tm ->
          k = chunkKey (boundTo tm) \/ k = msgKey (boundTo tm)).
Proof.
  induction ops as [| op ops IH]; intros c c' evs Hrun Hmap Htm.
  - injection Hrun as <- <-. split; assumption.
  - simpl in Hrun. destruct (step op c) as [c1 e1] eqn:Hstep.
    destruct (run ops c1) as [c2 e2] eqn:Hrest. injection Hrun as <- <-.
    destruct (step_keeps_filing _ _ _ _ Hstep Hmap Htm) as (Hmap1 & Htm1).
    exact (IH _ _ _ Hrest Hmap1 Htm1).
Qed.

Lemma new_filing :
  (forall ty e, _expectedMessagesByType new !! ty = Some e -> ty ∈ types e)
  /\ (forall k tm, _timers new !! k = Some tm ->
        k = chunkKey (boundTo tm) \/ k = msgKey (boundTo tm)).
Proof.
  split; intros k x Hk; simpl in Hk; rewrite lookup_empty in Hk; discriminate.
Qed.

(** X13. Whatever is done to a channel after its construction, every
    expectation in its map is filed under one of its own types, and every
    armed timer sits under [chunk-<id>] or [msg-<id>] of the expectation
    its handler is bound to. *)
Theorem expectations_stay_filed (ops : list Op) :
  (forall ty e,
      _expectedMessagesByType (fst (run ops new)) !! ty = Some e ->
      ty ∈ types e)
  /\ (forall k tm,
        _timers (fst (run ops new)) !! k = Some tm ->
        k = chunkKey (boundTo tm) \/ k = msgKey (boundTo tm)).
Proof.
  destruct (run ops new) as [c' evs] eqn:Hrun.
  destruct new_filing as [Hmap Htm].
  exact (run_keeps_filing ops new c' evs Hrun Hmap Htm).
Qed.

(** X14. On a channel in any state it can reach after construction:
    after [confirmExpectedMessage(type, success)] the channel is no longer
    expecting [type], and after a timer has expired no timer is armed under
    its key. *)
Theorem confirmed_is_not_expected (ops : list Op) (type : Z) (success : bool)
    (key : string) :
  isExpectingMessage type
    (fst (confirmExpectedMessage (Some type) success (fst (run ops new)))) = false
  /\ _timers (fst (timerExpires key (fst (run ops new)))) !! key = None.
Proof.
  destruct (run ops new) as [c evs] eqn:Hrun.
  destruct new_filing as [Hmap0 Htm0].
  destruct (run_keeps_filing ops new c evs Hrun Hmap0 Htm0) as (Hmap & Htm).
  simpl. split.
  - unfold isExpectingMessage, confirmExpectedMessage. simpl.
    apply bool_decide_eq_false. intros [e' He'].
    destruct (_expectedMessagesByType c !! type) as [e |] eqn:He.
    + assert (Hgone : deleteAll (types e) (_expectedMessagesByType c) !! type = None).
      { rewrite deleteAll_lookup.
        rewrite bool_decide_eq_true_2 by exact (Hmap _ _ He). reflexivity. }
      destruct success; simpl in He'; congruence.
    + simpl in He'. congruence.
  - unfold timerExpires, _onTimeout.
    destruct (_timers c !! key) as [tm |] eqn:Hk; [| exact Hk].
    simpl. destruct (clear_both_timers (boundTo tm) (_timers c)) as (Hc & Hm & _).
    destruct (Htm _ _ Hk) as [-> | ->]; assumption.
Qed.

End WithProtocol.
End SessionFacts.

(** ** More on expectations *)

Module ExpectRoundTrip.
Import DataChannel.
Import ExpectFacts.

Lemma deleteAll_setAll tys e (m : gmap Z ExpectedMessage) :
  (forall ty, ty ∈ tys -> m !! ty = None) ->
  deleteAll tys (setAll tys e m) = m.
Proof.
  intros Hfree. apply map_eq. intros ty.
  rewrite deleteAll_lookup, setAll_lookup.
  destruct (bool_decide (ty ∈ tys)) eqn:Hin; [| reflexivity].
  apply bool_decide_eq_true in Hin. symmetry. exact (Hfree ty Hin).
Qed.

Lemma clear_after_reset e d1 d2 (tm : gmap string Timer) :
  tm !! chunkKey e = None ->
  tm !! msgKey e = None ->
  clearTimeout (msgKey e)
    (clearTimeout (chunkKey e)
       (resetTimeout (msgKey e) e d2 (resetTimeout (chunkKey e) e d1 tm)))
  = tm.
Proof.
  intros Hc Hm. apply map_eq. intros k.
  unfold resetTimeout, clearTimeout.
  destruct (decide (k = msgKey e)) as [-> | Hkm].
  { rewrite lookup_delete_eq. symmetry. exact Hm. }
  rewrite lookup_delete_ne by congruence.
  destruct (decide (k = chunkKey e)) as [-> | Hkc].
  { rewrite lookup_delete_eq. symmetry. exact Hc. }
  repeat first [ rewrite lookup_delete_ne by congruence
               | rewrite lookup_insert_ne by congruence ].
  reflexivity.
Qed.

(** X15. Setting an expectation for types not expected so far (and with no
    timer under its two keys) and then confirming any one of its types
    brings the channel back to exactly the state it had before; the timeout
    callback is invoked if and only if the confirmation reports failure. *)
Theorem expect_then_confirm (tys : list Z) (cb : nat) (msgT chunkT : option Z)
    (ty : Z) (success : bool) (c : DataChannel.t) :
  ty ∈ tys ->
  (forall t, t ∈ tys -> _expectedMessagesByType c !! t = None) ->
  _timers c !! ("chunk-" +:+ join tys)%string = None ->
  _timers c !! ("msg-" +:+ join tys)%string = None ->
  confirmExpectedMessage (Some ty) success
    (expectMessage (TypeArray tys) cb msgT chunkT c)
  = (c, if success then [] else [TimeoutCallback cb]).
Proof.
  intros Hin Hfree Hc Hm.
  set (e := newExpectedMessage tys cb (default MESSAGE_TIMEOUT msgT)
              (default CHUNK_TIMEOUT chunkT)).
  assert (Hexp : expectMessage (TypeArray tys) cb msgT chunkT c =
            set_timers
              (resetTimeout (msgKey e) e (default MESSAGE_TIMEOUT msgT)
                 (resetTimeout (chunkKey e) e (default CHUNK_TIMEOUT chunkT)
                    (_timers c)))
              (set_expected (setAll tys e (_expectedMessagesByType c)) c)).
  { unfold expectMessage. destruct tys; [| reflexivity].
    exfalso. exact (not_elem_of_nil _ Hin). }
  rewrite Hexp. unfold confirmExpectedMessage. simpl.
  rewrite setAll_lookup, bool_decide_eq_true_2 by exact Hin.
  destruct success; simpl; f_equal;
    destruct c; unfold set_expected, set_timers; simpl in *;
    rewrite clear_after_reset by assumption;
    rewrite deleteAll_setAll by assumption; reflexivity.
Qed.

Lemma expect_then_confirm_witness :
  confirmExpectedMessage (Some 2) false
    (expectMessage (TypeArray [1; 2]) 5%nat None None new)
  = (new, [TimeoutCallback 5%nat]).
Proof.
  apply (expect_then_confirm [1; 2] 5%nat None None 2 false new).
  - apply elem_of_cons. right. apply elem_of_cons. left. reflexivity.
  - intros t _. reflexivity.
  - reflexivity.
  - reflexivity.
Defined.

End ExpectRoundTrip.

(** ** PeerChannel and the expectations of its connection *)

Module PeerExpectFacts.
Import PeerChannel.
Import ExpectFacts.

Section WithFactory.
Context `{MessageFactory}.

(** X16. When the parse of a frame fails and an expectation is registered
    under the peeked type, the expectation's timeout callback is invoked
    exactly once and before anything is sent or closed: the trace is
    [callback, REJECT] for a type other than [REJECT], and
    [callback, close] for [REJECT] on an open channel. Afterwards the
    expectation's two timers are cancelled and none of its types is
    expected. *)
Theorem failed_parse_fails_expectation (start finish : Z)
    (subscribers : ParsedMessage -> Subscribers)
    (rawMsg : list byte) (p : PeerChannel.t) (ty : Z) (err : string)
    (e : ExpectedMessage) :
  tryParse rawMsg = Caught (Some ty) err ->
  DataChannel._expectedMessagesByType (_conn p) !! ty = Some e ->
  exists p' evs,
    _onMessage start finish subscribers rawMsg p = (p', evs)
    /\ (ty <> REJECT ->
        evs = [LogD; Conn (DataChannel.TimeoutCallback (timeoutCallback e));
               SendReject (mkRejectMessage ty REJECT_MALFORMED err)])
    /\ (ty = REJECT ->
        DataChannel.readyState (_conn p) = DataChannel.OPEN ->
        evs = [LogD; Conn (DataChannel.TimeoutCallback (timeoutCallback e));
               ConnClose FAILED_TO_PARSE_MESSAGE_TYPE
                 "Failed to parse message type";
               Conn DataChannel.FireClose])
    /\ DataChannel._timers (_conn p') !! DataChannel.chunkKey e = None
    /\ DataChannel._timers (_conn p') !! DataChannel.msgKey e = None
    /\ (forall t, t ∈ types e ->
        DataChannel._expectedMessagesByType (_conn p') !! t = None).
Proof.
  intros Htry He. unfold _onMessage. rewrite Htry.
  unfold DataChannel.confirmExpectedMessage. simpl. rewrite He. simpl.
  destruct (clear_both_timers e (DataChannel._timers (_conn p))) as (Hc & Hm & _).
  assert (Hgone : forall t, t ∈ types e ->
            DataChannel.deleteAll (types e)
              (DataChannel._expectedMessagesByType (_conn p)) !! t = None).
  { intros t Hin. rewrite deleteAll_lookup.
    rewrite bool_decide_eq_true_2 by exact Hin. reflexivity. }
  destruct (Z.eqb_spec ty REJECT) as [-> | Hne].
  - unfold close, DataChannel.close. simpl.
    destruct (DataChannel.readyState (_conn p)) eqn:Hrs; simpl;
      eexists _, _; (split; [reflexivity |]);
      (split; [intros Habs; congruence |]);
      (split; [intros _ Hopen; first [discriminate | reflexivity] |]);
      (split; [first [exact Hc | apply lookup_empty] |]);
      (split; [first [exact Hm | apply lookup_empty] |]); exact Hgone.
  - unfold reject. eexists _, _. split; [reflexivity |].
    split; [intros _; reflexivity |].
    split; [intros Habs; congruence |].
    split; [exact Hc |]. split; [exact Hm |]. exact Hgone.
Qed.

(** X17. A frame that parses confirms the expectation of its peeked type
    with success: the trace is the dispatch followed by ['message-log'] (or
    by the log entry when a subscriber throws), no timeout callback is
    invoked, and an expectation registered under the type has its two
    timers cancelled and none of its types expected any more. A parse that
    yields a falsy message changes nothing and confirms nothing. *)
Theorem parsed_confirms_expectation (start finish : Z)
    (subscribers : ParsedMessage -> Subscribers)
    (rawMsg : list byte) (p : PeerChannel.t) (ty : Z) :
  (forall msg,
      tryParse rawMsg = Parsed ty (Some msg) ->
      exists p',
        _onMessage start finish subscribers rawMsg p
          = (p', Fire (messageType msg) msg
                 :: match subscribers msg with
                    | Completed =>
                        [FireMessageLog msg (finish - start) (byteLength rawMsg)]
                    | Threw _ => [LogW]
                    end)
        /\ (forall e,
              DataChannel._expectedMessagesByType (_conn p) !! ty = Some e ->
              DataChannel._timers (_conn p') !! DataChannel.chunkKey e = None
              /\ DataChannel._timers (_conn p') !! DataChannel.msgKey e = None
              /\ forall t, t ∈ types e ->
                   DataChannel._expectedMessagesByType (_conn p') !! t = None))
  /\ (tryParse rawMsg = Parsed ty None ->
      _onMessage start finish subscribers rawMsg p = (p, [])).
Proof.
  split.
  - intros msg Htry. unfold _onMessage. rewrite Htry.
    unfold DataChannel.confirmExpectedMessage. simpl.
    destruct (DataChannel._expectedMessagesByType (_conn p) !! ty) as [e |] eqn:He.
    + simpl. destruct (clear_both_timers e (DataChannel._timers (_conn p)))
        as (Hc & Hm & _).
      eexists. split; [destruct (subscribers msg); reflexivity |].
      intros e' [= <-]. split; [exact Hc |]. split; [exact Hm |].
      intros t Hin. simpl. rewrite deleteAll_lookup.
      rewrite bool_decide_eq_true_2 by exact Hin. reflexivity.
    + simpl. eexists. split; [destruct (subscribers msg); reflexivity |].
      intros e' Habs. discriminate.
  - intros Htry. unfold _onMessage. rewrite Htry. reflexivity.
Qed.

End WithFactory.

Lemma failed_parse_fails_expectation_witness :
  exists p',
    @_onMessage exampleFactory 3 8 (fun _ => Completed)
      (exampleHeader 6 99 ++ [x01])
      (mk (DataChannel.expectMessage (DataChannel.OneType 6) 4%nat None None
             DataChannel.new))
    = (p', [LogD; Conn (DataChannel.TimeoutCallback 4%nat);
            SendReject (mkRejectMessage 6 REJECT_MALFORMED "Malformed length")]).
Proof.
  destruct (@failed_parse_fails_expectation exampleFactory 3 8
              (fun _ => Completed) (exampleHeader 6 99 ++ [x01])
              (mk (DataChannel.expectMessage (DataChannel.OneType 6) 4%nat
                     None None DataChannel.new))
              6 "Malformed length"
              (DataChannel.newExpectedMessage [6] 4%nat
                 DataChannel.MESSAGE_TIMEOUT DataChannel.CHUNK_TIMEOUT))
    as (p' & evs & Hrun & Hother & _).
  - vm_compute. reflexivity.
  - vm_compute. reflexivity.
  - exists p'. rewrite Hrun. f_equal. apply Hother. vm_compute. discriminate.
Defined.

Lemma parsed_confirms_expectation_witness :
  exists p',
    @_onMessage exampleFactory 3 8 (fun _ => Completed)
      (exampleHeader 6 15 ++ [x01; x02])
      (mk (DataChannel.expectMessage (DataChannel.OneType 6) 4%nat None None
             DataChannel.new))
    = (p', [@Fire exampleFactory 6 exampleMessage;
            @FireMessageLog exampleFactory exampleMessage 5 15])
    /\ DataChannel._timers (_conn p') !! "chunk-6"%string = None.
Proof.
  destruct (@parsed_confirms_expectation exampleFactory 3 8
              (fun _ => Completed) (exampleHeader 6 15 ++ [x01; x02])
              (mk (DataChannel.expectMessage (DataChannel.OneType 6) 4%nat
                     None None DataChannel.new)) 6)
    as [Hparsed _].
  destruct (Hparsed exampleMessage) as (p' & Hrun & Hexp).
  - vm_compute. reflexivity.
  - exists p'. split; [exact Hrun |].
    destruct (Hexp (DataChannel.newExpectedMessage [6] 4%nat
                      DataChannel.MESSAGE_TIMEOUT DataChannel.CHUNK_TIMEOUT))
      as (Hc & _); [vm_compute; reflexivity | exact Hc].
Defined.

End PeerExpectFacts.

(** ** From the transport to the subscribers *)

Module EndToEnd.
Import DataChannel.
Import SendFacts.
Import ReceiveFacts.
Import ExpectFacts.

Section WithFactory.
Context `{Protocol} `{MessageFactory}.

Lemma writeChunk_keeps_map now tag chunk c :
  _expectedMessagesByType (fst (writeChunk now tag chunk c))
    = _expectedMessagesByType c.
Proof.
  unfold writeChunk, _error, close, _onClose.
  repeat match goal with
  | |- context [match ?x with _ => _ end] =>
      lazymatch x with
      | context [match _ with _ => _ end] => fail
      | _ => destruct x eqn:?
      end
  end; reflexivity.
Qed.

(** A successful confirmation makes nothing observable and leaves the
    buffer and the ready state alone. *)
Lemma confirm_success type c :
  snd (confirmExpectedMessage type true c) = []
  /\ readyState (fst (confirmExpectedMessage type true c)) = readyState c
  /\ _buffer (fst (confirmExpectedMessage type true c)) = _buffer c.
Proof.
  unfold confirmExpectedMessage. destruct (type ≫= _); repeat split.
Qed.

(** What the listener does with a frame that parses and whose subscribers
    return. *)
Lemma listener_dispatches start finish subscribers m ty pm p :
  PeerChannel.tryParse m = PeerChannel.Parsed ty (Some pm) ->
  subscribers pm = PeerChannel.Completed ->
  PeerChannel._onMessage start finish subscribers m p
    = (PeerChannel.mk (fst (confirmExpectedMessage (Some ty) true
                              (PeerChannel._conn p))),
       [PeerChannel.Fire (messageType pm) pm;
        PeerChannel.FireMessageLog pm (finish - start) (byteLength m)]).
Proof.
  intros Htry Hsub. unfold PeerChannel._onMessage. rewrite Htry, Hsub.
  destruct (confirm_success (Some ty) (PeerChannel._conn p)) as (Hevs & _).
  destruct (confirmExpectedMessage (Some ty) true (PeerChannel._conn p))
    as [c evs]. simpl in Hevs. subst evs. reflexivity.
Qed.

(** From a connection that holds the first [|m| - r] bytes of [m], the
    rest of the sender's chunks complete [m], which the listener then
    parses, confirms and dispatches. *)
Lemma assembling_dispatches now start finish subscribers m tag ty pm :
  0 <= tag < 256 ->
  PeerChannel.tryParse m = PeerChannel.Parsed ty (Some pm) ->
  subscribers pm = PeerChannel.Completed ->
  forall r, 0 <= r -> 0 < r -> r <= byteLength m ->
  forall c,
    readyState c = OPEN ->
    _buffer c = Some (mkSerialBuffer (byteLength m)
                        (take (Z.to_nat (byteLength m - r)) m)) ->
    _receivingTag c = tag ->
    exists c1 e1 p1 l1 p2 l2 clast,
      writeChunk now tag (slice m (byteLength m - r) (payloadSize r)) c = (c1, e1)
      /\ PeerWiring.listen start finish subscribers e1 (PeerChannel.mk c1)
           = (p1, l1)
      /\ PeerWiring.onFrames now start finish subscribers
           (sendChunkedLoop (spanning m) tag (r - payloadSize r)) p1 = (p2, l2)
      /\ PeerChannel.dispatched (l1 ++ l2) = [(messageType pm, pm)]
      /\ PeerChannel.messageLogs (l1 ++ l2)
           = [(pm, finish - start, byteLength m)]
      /\ PeerChannel.closeCalls (l1 ++ l2) = []
      /\ PeerChannel.rejectsSent (l1 ++ l2) = []
      /\ Forall (fun e => forall cb,
                   e <> PeerChannel.Conn (TimeoutCallback cb)) (l1 ++ l2)
      /\ PeerChannel._conn p2 = fst (confirmExpectedMessage (Some ty) true clast)
      /\ _expectedMessagesByType clast = _expectedMessagesByType c
      /\ readyState clast = OPEN
      /\ _buffer clast = None.
Proof.
  intros Htag Htry Hsub.
  apply (remaining_ind (fun r =>
    0 < r -> r <= byteLength m ->
    forall c,
      readyState c = OPEN ->
      _buffer c = Some (mkSerialBuffer (byteLength m)
                          (take (Z.to_nat (byteLength m - r)) m)) ->
      _receivingTag c = tag ->
      exists c1 e1 p1 l1 p2 l2 clast,
        writeChunk now tag (slice m (byteLength m - r) (payloadSize r)) c
          = (c1, e1)
        /\ PeerWiring.listen start finish subscribers e1 (PeerChannel.mk c1)
             = (p1, l1)
        /\ PeerWiring.onFrames now start finish subscribers
             (sendChunkedLoop (spanning m) tag (r - payloadSize r)) p1 = (p2, l2)
        /\ PeerChannel.dispatched (l1 ++ l2) = [(messageType pm, pm)]
        /\ PeerChannel.messageLogs (l1 ++ l2)
             = [(pm, finish - start, byteLength m)]
        /\ PeerChannel.closeCalls (l1 ++ l2) = []
        /\ PeerChannel.rejectsSent (l1 ++ l2) = []
        /\ Forall (fun e => forall cb,
                     e <> PeerChannel.Conn (TimeoutCallback cb)) (l1 ++ l2)
        /\ PeerChannel._conn p2
             = fst (confirmExpectedMessage (Some ty) true clast)
        /\ _expectedMessagesByType clast = _expectedMessagesByType c
        /\ readyState clast = OPEN
        /\ _buffer clast = None)).
  intros r _ IH Hpos Hfit c Hopen Hbuf Hrt.
  pose proof (payloadSize_bounds r Hpos) as [[Hp0 Hpr] Hpmax].
  set (buf := mkSerialBuffer (byteLength m)
                (take (Z.to_nat (byteLength m - r)) m)) in *.
  set (chunk := slice m (byteLength m - r) (payloadSize r)).
  assert (Hwp : writePos buf = byteLength m - r).
  { unfold writePos, buf, byteLength. simpl. rewrite length_take.
    unfold byteLength in Hfit. lia. }
  assert (Hsl : byteLength chunk = payloadSize r)
    by (apply byteLength_slice; lia).
  assert (Hwr : written buf ++ chunk
                = take (Z.to_nat (byteLength m - (r - payloadSize r))) m).
  { unfold buf, chunk. simpl. rewrite take_slice by lia. do 2 f_equal. lia. }
  pose proof (writeChunk_keeps_map now tag chunk c) as Hmap.
  destruct (Z.eq_dec (r - payloadSize r) 0) as [Hlast | Hmore].
  - (* the last chunk *)
    assert (Hw : writeChunk now tag chunk c =
              (set_buffer None
                 (set_lastChunkReceivedAt now
                    (set_buffer (Some (write buf chunk)) c)),
               [FireMessage m])).
    { rewrite (writeChunk_complete now tag chunk c buf Hbuf);
        [| congruence | rewrite Hsl, Hwp; simpl; lia].
      rewrite Hwr, Hlast, Z.sub_0_r, take_all. reflexivity. }
    rewrite Hw in Hmap. simpl in Hmap.
    eexists _, _, _, _, _, _, _. split; [exact Hw |].
    split.
    { simpl. rewrite (listener_dispatches _ _ _ _ _ _ _ Htry Hsub). reflexivity. }
    split.
    { rewrite Hlast, sendChunkedLoop_done by lia. reflexivity. }
    simpl. repeat split; try reflexivity; try assumption.
    repeat constructor; intros cb; discriminate.
  - (* a full chunk, and more to come *)
    destruct (writeChunk_partial now tag chunk c buf Hbuf)
      as (c1 & Hw & Hbuf1 & Hopen1 & Hrt1);
      [congruence | rewrite Hsl, Hwp; simpl; lia |].
    rewrite Hw in Hmap. simpl in Hmap.
    assert (Hbuf1' : _buffer c1 =
              Some (mkSerialBuffer (byteLength m)
                      (take (Z.to_nat (byteLength m - (r - payloadSize r))) m))).
    { rewrite Hbuf1. unfold write. rewrite Hwr. reflexivity. }
    destruct (IH (r - payloadSize r) ltac:(lia) ltac:(lia) ltac:(lia)
                c1 ltac:(congruence) Hbuf1' ltac:(congruence))
      as (c2 & e2 & p2 & l2 & p3 & l3 & clast & Hw2 & Hlisten & Hrest
          & Hdisp & Hlogs & Hclose & Hrej & Hcb & Hconn & Hmap2 & Ho & Hb).
    pose proof (payloadSize_bounds (r - payloadSize r) ltac:(lia))
      as [[Hq0 Hqr] Hqmax].
    exists c1, [FireChunk (write buf chunk)], (PeerChannel.mk c1),
           [PeerChannel.Conn (FireChunk (write buf chunk))],
           p3, (l2 ++ l3), clast.
    split; [exact Hw |]. split; [reflexivity |]. split.
    { rewrite sendChunkedLoop_spanning by lia. simpl PeerWiring.onFrames.
      unfold PeerWiring.onFrame. simpl PeerChannel._conn.
      rewrite (onMessage_assembling now _ _ c1 _ ltac:(congruence) Hbuf1').
      - rewrite read_writeUint8 by exact Htag.
        rewrite Hw2, Hlisten, Hrest. reflexivity.
      - rewrite byteLength_cons, byteLength_slice by lia. lia. }
    simpl. split; [exact Hdisp |]. split; [exact Hlogs |].
    split; [exact Hclose |]. split; [exact Hrej |].
    split; [constructor; [intros cb; discriminate | exact Hcb] |].
    split; [exact Hconn |]. split; [congruence |]. split; assumption.
Qed.

(** X18. End to end: a [PeerChannel] on an open, idle connection sets an
    expectation for a type and the transport then delivers, under the next
    tag, the chunks of a framed message that parses to that type. The
    message is dispatched to its subscribers exactly once, on the last
    chunk, followed by one ['message-log'] with the length of the whole
    message; nothing is rejected or closed, no timeout callback is invoked,
    and afterwards the type is no longer expected, the two timers of the
    expectation are cancelled and the connection is open and idle. *)
Theorem expected_message_reaches_subscribers (now start finish : Z)
    (subscribers : ParsedMessage -> PeerChannel.Subscribers)
    (m : list byte) (ty : Z) (pm : ParsedMessage)
    (cb : nat) (msgT chunkT : option Z) (p : PeerChannel.t) :
  readyState (PeerChannel._conn p) = OPEN ->
  _buffer (PeerChannel._conn p) = None ->
  -1 <= _receivingTag (PeerChannel._conn p) ->
  byteLength m <= MESSAGE_SIZE_MAX ->
  Message.peekLength m = Some (byteLength m) ->
  PeerChannel.tryParse m = PeerChannel.Parsed ty (Some pm) ->
  subscribers pm = PeerChannel.Completed ->
  exists p' evs,
    PeerWiring.onFrames now start finish subscribers
      (_sendChunked (spanning m) ((_receivingTag (PeerChannel._conn p) + 1) mod 255))
      (PeerWiring.expectMessage (OneType ty) cb msgT chunkT p) = (p', evs)
    /\ PeerChannel.dispatched evs = [(messageType pm, pm)]
    /\ PeerChannel.messageLogs evs = [(pm, finish - start, byteLength m)]
    /\ PeerChannel.closeCalls evs = []
    /\ PeerChannel.rejectsSent evs = []
    /\ Forall (fun e => forall cb',
                 e <> PeerChannel.Conn (TimeoutCallback cb')) evs
    /\ PeerWiring.isExpectingMessage ty p' = false
    /\ _timers (PeerChannel._conn p')
         !! chunkKey (newExpectedMessage [ty] cb (default MESSAGE_TIMEOUT msgT)
                        (default CHUNK_TIMEOUT chunkT)) = None
    /\ _timers (PeerChannel._conn p')
         !! msgKey (newExpectedMessage [ty] cb (default MESSAGE_TIMEOUT msgT)
                      (default CHUNK_TIMEOUT chunkT)) = None
    /\ readyState (PeerChannel._conn p') = OPEN
    /\ _buffer (PeerChannel._conn p') = None.
Proof.
  intros Hopen Hidle Hrt Hmax Hlen Htry Hsub.
  set (tag := (_receivingTag (PeerChannel._conn p) + 1) mod 255).
  set (e := newExpectedMessage [ty] cb (default MESSAGE_TIMEOUT msgT)
              (default CHUNK_TIMEOUT chunkT)).
  set (ce := DataChannel.expectMessage (OneType ty) cb msgT chunkT
               (PeerChannel._conn p)).
  assert (Htag : 0 <= tag < 256).
  { pose proof (Z.mod_pos_bound (_receivingTag (PeerChannel._conn p) + 1) 255
                  ltac:(lia)). unfold tag. lia. }
  assert (Hce : readyState ce = OPEN /\ _buffer ce = None
                /\ _receivingTag ce = _receivingTag (PeerChannel._conn p)
                /\ _expectedMessagesByType ce !! ty = Some e).
  { unfold ce, DataChannel.expectMessage. simpl.
    repeat split; try assumption. apply lookup_insert_eq. }
  destruct Hce as (Hopen_e & Hidle_e & Hrt_e & He).
  pose proof (peekLength_header _ _ Hlen) as Hhdr.
  pose proof (payloadSize_bounds (byteLength m) ltac:(lia)) as [[Hp0 Hpr] Hpmax].
  set (first := slice m (byteLength m - byteLength m) (payloadSize (byteLength m))).
  assert (Hfirst : first = take (Z.to_nat (payloadSize (byteLength m))) m).
  { unfold first, slice. rewrite Z.sub_diag. reflexivity. }
  assert (Hplen : Message.peekLength first = Some (byteLength m)).
  { rewrite Hfirst. apply peekLength_take; [exact Hlen |].
    unfold payloadSize, CHUNK_SIZE_MAX in *.
    destruct (Z.geb_spec (byteLength m + 1) (1024 * 16)); lia. }
  destruct (peekType_defined _ _ Hplen) as [mty Hmty].
  set (c0 := set_msgType mty
               (set_receivingTag tag
                  (set_buffer (Some (mkSerialBuffer (byteLength m) [])) ce))).
  destruct (assembling_dispatches now start finish subscribers m tag ty pm
              Htag Htry Hsub (byteLength m) ltac:(lia) ltac:(lia) ltac:(lia) c0)
    as (c1 & e1 & p1 & l1 & p2 & l2 & clast & Hw & Hlisten & Hrest
        & Hdisp & Hlogs & Hclose & Hrej & Hcb & Hconn & Hmap & Ho & Hb).
  { exact Hopen_e. }
  { unfold c0. simpl. rewrite Z.sub_diag. reflexivity. }
  { reflexivity. }
  fold first in Hw.
  assert (Hrun : PeerWiring.onFrames now start finish subscribers
                   (_sendChunked (spanning m) tag)
                   (PeerWiring.expectMessage (OneType ty) cb msgT chunkT p)
                 = (p2, l1 ++ l2)).
  { unfold _sendChunked. cbn [bytes spanning]. rewrite sendChunkedLoop_spanning by lia.
    simpl PeerWiring.onFrames. unfold PeerWiring.onFrame.
    unfold PeerWiring.expectMessage. simpl PeerChannel._conn. fold ce. fold first.
    rewrite (onMessage_new now _ first ce (byteLength m) mty Hopen_e Hidle_e).
    - rewrite read_writeUint8 by exact Htag. fold c0.
      rewrite Hw, Hlisten, Hrest. reflexivity.
    - rewrite byteLength_cons. unfold first.
      rewrite byteLength_slice by lia. lia.
    - rewrite read_writeUint8 by exact Htag. rewrite Hrt_e.
      unfold tag. symmetry. apply next_tag_mod. exact Hrt.
    - exact Hplen.
    - exact Hmty.
    - exact Hmax. }
  assert (Hlast : _expectedMessagesByType clast !! ty = Some e).
  { rewrite Hmap. unfold c0. simpl. exact He. }
  destruct (confirm_success (Some ty) clast) as (_ & Hrs & Hbf).
  destruct (clear_both_timers e (_timers clast)) as (Hck & Hmk & _).
  exists p2, (l1 ++ l2). split; [exact Hrun |].
  split; [exact Hdisp |]. split; [exact Hlogs |]. split; [exact Hclose |].
  split; [exact Hrej |]. split; [exact Hcb |].
  unfold PeerWiring.isExpectingMessage, isExpectingMessage.
  rewrite Hconn, Hrs, Hbf.
  unfold confirmExpectedMessage. simpl. rewrite Hlast. simpl.
  split.
  { apply bool_decide_eq_false. intros [x Hx].
    unfold deleteAll in Hx. simpl in Hx.
    rewrite lookup_delete_eq in Hx. discriminate. }
  split; [exact Hck |]. split; [exact Hmk |]. split; assumption.
Qed.

End WithFactory.

Lemma expected_message_reaches_subscribers_witness :
  exists p' evs,
    @PeerWiring.onFrames exampleProtocol exampleFactory 7 3 8
      (fun _ => PeerChannel.Completed)
      (_sendChunked (spanning (exampleHeader 6 15 ++ [x01; x02])) 0)
      (PeerWiring.expectMessage (OneType 6) 4%nat None None
         (PeerChannel.mk new)) = (p', evs)
    /\ @PeerChannel.dispatched exampleFactory evs = [(6, exampleMessage)]
    /\ @PeerChannel.messageLogs exampleFactory evs = [(exampleMessage, 5, 15)]
    /\ PeerWiring.isExpectingMessage 6 p' = false.
Proof.
  destruct (@expected_message_reaches_subscribers exampleProtocol exampleFactory
              7 3 8 (fun _ => PeerChannel.Completed)
              (exampleHeader 6 15 ++ [x01; x02]) 6 exampleMessage
              4%nat None None (PeerChannel.mk new))
    as (p' & evs & Hrun & Hdisp & Hlogs & _ & _ & _ & Hexp & _).
  - reflexivity.
  - reflexivity.
  - simpl. lia.
  - vm_compute. discriminate.
  - vm_compute. reflexivity.
  - vm_compute. reflexivity.
  - reflexivity.
  - exists p', evs. repeat split; assumption.
Defined.

End EndToEnd.

(** ** A malformed frame, from the transport to the close *)

Module BanFacts.
Import DataChannel.
Import SendFacts.
Import ReceiveFacts.
Import FrameFacts.

Section WithFactory.
Context `{Protocol} `{MessageFactory}.

(** A [PeerChannel] whose connection is not open sees nothing of the frames
    the transport still delivers. *)
Lemma onFrames_not_open now start finish subscribers frames p :
  readyState (PeerChannel._conn p) <> OPEN ->
  PeerWiring.onFrames now start finish subscribers frames p = (p, []).
Proof.
  intros Hclosed. induction frames as [| f frames IH]; [reflexivity |].
  simpl. unfold PeerWiring.onFrame.
  assert (Hdrop : _onMessage now f (PeerChannel._conn p)
                  = (PeerChannel._conn p, [])).
  { unfold _onMessage.
    destruct (readyState (PeerChannel._conn p)); try congruence; reflexivity. }
  rewrite Hdrop. simpl. destruct p as [c]. simpl in *. rewrite IH. reflexivity.
Qed.

(** From a connection that holds the first [|m| - r] bytes of [m], the
    rest of the sender's chunks fire ['chunk'] until the last one hands
    the whole of [m] to the listener, on a connection that is open and
    idle and expects what it expected before. *)
Lemma assembling_hands_over now start finish subscribers m tag :
  0 <= tag < 256 ->
  forall r, 0 <= r -> 0 < r -> r <= byteLength m ->
  forall c,
    readyState c = OPEN ->
    _buffer c = Some (mkSerialBuffer (byteLength m)
                        (take (Z.to_nat (byteLength m - r)) m)) ->
    _receivingTag c = tag ->
    exists c1 e1 p1 l1 p2 l2 clast pre,
      writeChunk now tag (slice m (byteLength m - r) (payloadSize r)) c = (c1, e1)
      /\ PeerWiring.listen start finish subscribers e1 (PeerChannel.mk c1)
           = (p1, l1)
      /\ PeerWiring.onFrames now start finish subscribers
           (sendChunkedLoop (spanning m) tag (r - payloadSize r)) p1 = (p2, l2)
      /\ p2 = fst (PeerChannel._onMessage start finish subscribers m
                     (PeerChannel.mk clast))
      /\ l1 ++ l2
           = map PeerChannel.Conn pre
               ++ PeerChannel.Conn (FireMessage m)
                  :: snd (PeerChannel._onMessage start finish subscribers m
                            (PeerChannel.mk clast))
      /\ Forall (fun e => exists b, e = FireChunk b) pre
      /\ _expectedMessagesByType clast = _expectedMessagesByType c
      /\ readyState clast = OPEN
      /\ _buffer clast = None.
Proof.
  intros Htag.
  apply (remaining_ind (fun r =>
    0 < r -> r <= byteLength m ->
    forall c,
      readyState c = OPEN ->
      _buffer c = Some (mkSerialBuffer (byteLength m)
                          (take (Z.to_nat (byteLength m - r)) m)) ->
      _receivingTag c = tag ->
      exists c1 e1 p1 l1 p2 l2 clast pre,
        writeChunk now tag (slice m (byteLength m - r) (payloadSize r)) c
          = (c1, e1)
        /\ PeerWiring.listen start finish subscribers e1 (PeerChannel.mk c1)
             = (p1, l1)
        /\ PeerWiring.onFrames now start finish subscribers
             (sendChunkedLoop (spanning m) tag (r - payloadSize r)) p1 = (p2, l2)
        /\ p2 = fst (PeerChannel._onMessage start finish subscribers m
                       (PeerChannel.mk clast))
        /\ l1 ++ l2
             = map PeerChannel.Conn pre
                 ++ PeerChannel.Conn (FireMessage m)
                    :: snd (PeerChannel._onMessage start finish subscribers m
                              (PeerChannel.mk clast))
        /\ Forall (fun e => exists b, e = FireChunk b) pre
        /\ _expectedMessagesByType clast = _expectedMessagesByType c
        /\ readyState clast = OPEN
        /\ _buffer clast = None)).
  intros r _ IH Hpos Hfit c Hopen Hbuf Hrt.
  pose proof (payloadSize_bounds r Hpos) as [[Hp0 Hpr] Hpmax].
  set (buf := mkSerialBuffer (byteLength m)
                (take (Z.to_nat (byteLength m - r)) m)) in *.
  set (chunk := slice m (byteLength m - r) (payloadSize r)).
  assert (Hwp : writePos buf = byteLength m - r).
  { unfold writePos, buf, byteLength. simpl. rewrite length_take.
    unfold byteLength in Hfit. lia. }
  assert (Hsl : byteLength chunk = payloadSize r)
    by (apply byteLength_slice; lia).
  assert (Hwr : written buf ++ chunk
                = take (Z.to_nat (byteLength m - (r - payloadSize r))) m).
  { unfold buf, chunk. simpl. rewrite take_slice by lia. do 2 f_equal. lia. }
  pose proof (EndToEnd.writeChunk_keeps_map now tag chunk c) as Hmap.
  destruct (Z.eq_dec (r - payloadSize r) 0) as [Hlast | Hmore].
  - (* the last chunk *)
    set (c1 := set_buffer None
                 (set_lastChunkReceivedAt now
                    (set_buffer (Some (write buf chunk)) c))).
    assert (Hw : writeChunk now tag chunk c = (c1, [FireMessage m])).
    { rewrite (writeChunk_complete now tag chunk c buf Hbuf);
        [| congruence | rewrite Hsl, Hwp; simpl; lia].
      rewrite Hwr, Hlast, Z.sub_0_r, take_all. reflexivity. }
    destruct (PeerChannel._onMessage start finish subscribers m
                (PeerChannel.mk c1)) as [pp ee] eqn:Hpm.
    exists c1, [FireMessage m], pp,
           (PeerChannel.Conn (FireMessage m) :: ee ++ []), pp, [], c1, [].
    split; [exact Hw |].
    split; [simpl; rewrite Hpm; reflexivity |].
    split; [rewrite Hlast, sendChunkedLoop_done by lia; reflexivity |].
    rewrite Hpm. simpl. rewrite !app_nil_r.
    repeat split; try reflexivity; try assumption. constructor.
  - (* a full chunk, and more to come *)
    destruct (writeChunk_partial now tag chunk c buf Hbuf)
      as (c1 & Hw & Hbuf1 & Hopen1 & Hrt1);
      [congruence | rewrite Hsl, Hwp; simpl; lia |].
    rewrite Hw in Hmap. simpl in Hmap.
    assert (Hbuf1' : _buffer c1 =
              Some (mkSerialBuffer (byteLength m)
                      (take (Z.to_nat (byteLength m - (r - payloadSize r))) m))).
    { rewrite Hbuf1. unfold write. rewrite Hwr. reflexivity. }
    destruct (IH (r - payloadSize r) ltac:(lia) ltac:(lia) ltac:(lia)
                c1 ltac:(congruence) Hbuf1' ltac:(congruence))
      as (c2 & e2 & p2 & l2 & p3 & l3 & clast & pre & Hw2 & Hlisten & Hrest
          & Hp3 & Hevs & Hpre & Hmap2 & Ho & Hb).
    pose proof (payloadSize_bounds (r - payloadSize r) ltac:(lia))
      as [[Hq0 Hqr] Hqmax].
    exists c1, [FireChunk (write buf chunk)], (PeerChannel.mk c1),
           [PeerChannel.Conn (FireChunk (write buf chunk))],
           p3, (l2 ++ l3), clast, (FireChunk (write buf chunk) :: pre).
    split; [exact Hw |]. split; [reflexivity |]. split.
    { rewrite sendChunkedLoop_spanning by lia. simpl PeerWiring.onFrames.
      unfold PeerWiring.onFrame. simpl PeerChannel._conn.
      rewrite (onMessage_assembling now _ _ c1 _ ltac:(congruence) Hbuf1').
      - rewrite read_writeUint8 by exact Htag.
        rewrite Hw2, Hlisten, Hrest. reflexivity.
      - rewrite byteLength_cons, byteLength_slice by lia. lia. }
    split; [exact Hp3 |].
    split; [simpl; rewrite Hevs; reflexivity |].
    split; [constructor; [eexists; reflexivity | exact Hpre] |].
    split; [congruence |]. split; assumption.
Qed.

(** X21. End to end: on an open, idle connection the transport delivers,
    under the next tag, the chunks of a framed message whose type cannot be
    peeked or is [REJECT] and whose parse fails. On the last chunk the
    [PeerChannel] closes the connection with
    [FAILED_TO_PARSE_MESSAGE_TYPE]; it sends no [REJECT] and dispatches
    nothing; and whatever the transport delivers afterwards changes nothing
    and is seen by no one. *)
Theorem malformed_frame_bans_peer (now start finish : Z)
    (subscribers : ParsedMessage -> PeerChannel.Subscribers)
    (m : list byte) (type : option Z) (err : string) (p : PeerChannel.t) :
  readyState (PeerChannel._conn p) = OPEN ->
  _buffer (PeerChannel._conn p) = None ->
  -1 <= _receivingTag (PeerChannel._conn p) ->
  byteLength m <= MESSAGE_SIZE_MAX ->
  Message.peekLength m = Some (byteLength m) ->
  PeerChannel.tryParse m = PeerChannel.Caught type err ->
  type = None \/ type = Some REJECT ->
  exists p' evs,
    PeerWiring.onFrames now start finish subscribers
      (_sendChunked (spanning m) ((_receivingTag (PeerChannel._conn p) + 1) mod 255)) p
      = (p', evs)
    /\ PeerChannel.closeCalls evs
         = [(PeerChannel.FAILED_TO_PARSE_MESSAGE_TYPE,
             "Failed to parse message type"%string)]
    /\ PeerChannel.rejectsSent evs = []
    /\ PeerChannel.dispatched evs = []
    /\ readyState (PeerChannel._conn p') = CLOSED
    /\ (forall now' start' finish' frames,
          PeerWiring.onFrames now' start' finish' subscribers frames p'
            = (p', [])).
Proof.
  intros Hopen Hidle Hrt Hmax Hlen Htry Htype.
  set (tag := (_receivingTag (PeerChannel._conn p) + 1) mod 255).
  set (c := PeerChannel._conn p).
  assert (Htag : 0 <= tag < 256).
  { pose proof (Z.mod_pos_bound (_receivingTag (PeerChannel._conn p) + 1) 255
                  ltac:(lia)). unfold tag. lia. }
  pose proof (peekLength_header _ _ Hlen) as Hhdr.
  pose proof (payloadSize_bounds (byteLength m) ltac:(lia)) as [[Hp0 Hpr] Hpmax].
  set (first := slice m (byteLength m - byteLength m) (payloadSize (byteLength m))).
  assert (Hfirst : first = take (Z.to_nat (payloadSize (byteLength m))) m).
  { unfold first, slice. rewrite Z.sub_diag. reflexivity. }
  assert (Hplen : Message.peekLength first = Some (byteLength m)).
  { rewrite Hfirst. apply peekLength_take; [exact Hlen |].
    unfold payloadSize, CHUNK_SIZE_MAX in *.
    destruct (Z.geb_spec (byteLength m + 1) (1024 * 16)); lia. }
  destruct (peekType_defined _ _ Hplen) as [mty Hmty].
  set (c0 := set_msgType mty
               (set_receivingTag tag
                  (set_buffer (Some (mkSerialBuffer (byteLength m) [])) c))).
  destruct (assembling_hands_over now start finish subscribers m tag
              Htag (byteLength m) ltac:(lia) ltac:(lia) ltac:(lia) c0)
    as (c1 & e1 & p1 & l1 & p2 & l2 & clast & pre & Hw & Hlisten & Hrest
        & Hp2 & Hevs & Hpre & _ & Ho & Hb).
  { exact Hopen. }
  { unfold c0. simpl. rewrite Z.sub_diag. reflexivity. }
  { reflexivity. }
  fold first in Hw.
  assert (Hrun : PeerWiring.onFrames now start finish subscribers
                   (_sendChunked (spanning m) tag) p = (p2, l1 ++ l2)).
  { unfold _sendChunked. cbn [bytes spanning]. rewrite sendChunkedLoop_spanning by lia.
    simpl PeerWiring.onFrames. unfold PeerWiring.onFrame. fold c. fold first.
    rewrite (onMessage_new now _ first c (byteLength m) mty Hopen Hidle).
    - rewrite read_writeUint8 by exact Htag. fold c0.
      rewrite Hw, Hlisten, Hrest. reflexivity.
    - rewrite byteLength_cons. unfold first.
      rewrite byteLength_slice by lia. lia.
    - rewrite read_writeUint8 by exact Htag.
      unfold tag, c. symmetry. apply next_tag_mod. exact Hrt.
    - exact Hplen.
    - exact Hmty.
    - exact Hmax. }
  (* what the listener does with the malformed message *)
  assert (Hban :
    exists cevs cfin,
      PeerChannel._onMessage start finish subscribers m (PeerChannel.mk clast)
        = (PeerChannel.mk cfin,
           PeerChannel.LogD :: map PeerChannel.Conn cevs
             ++ [PeerChannel.ConnClose PeerChannel.FAILED_TO_PARSE_MESSAGE_TYPE
                   "Failed to parse message type";
                 PeerChannel.Conn FireClose])
      /\ readyState cfin = CLOSED).
  { unfold PeerChannel._onMessage. rewrite Htry.
    cbv beta iota zeta. simpl PeerChannel._conn.
    destruct (PeerFacts.confirm_quiet type false clast) as [Hstate _].
    destruct (confirmExpectedMessage type false clast) as [cc cevs] eqn:Hconf.
    simpl in Hstate. simpl PeerChannel._conn.
    assert (Hclose : PeerChannel.close PeerChannel.FAILED_TO_PARSE_MESSAGE_TYPE
                       "Failed to parse message type" (PeerChannel.mk cc)
                     = (PeerChannel.mk
                          (set_timers (clearAll (_timers cc))
                             (set_readyState CLOSED cc)),
                        [PeerChannel.ConnClose
                           PeerChannel.FAILED_TO_PARSE_MESSAGE_TYPE
                           "Failed to parse message type";
                         PeerChannel.Conn FireClose])).
    { unfold PeerChannel.close, close, _onClose. simpl.
      rewrite Hstate, Ho. reflexivity. }
    destruct Htype as [-> | ->]; cbv beta iota zeta.
    - rewrite Hclose. eexists _, _. split; reflexivity.
    - rewrite Z.eqb_refl, Hclose. eexists _, _. split; reflexivity. }
  destruct Hban as (cevs & cfin & Hpm & Hclosed).
  rewrite Hpm in Hp2, Hevs. simpl in Hp2, Hevs.
  assert (Hpre' : PeerChannel.closeCalls (map PeerChannel.Conn pre) = []
                  /\ PeerChannel.rejectsSent (map PeerChannel.Conn pre) = []
                  /\ PeerChannel.dispatched (map PeerChannel.Conn pre) = []).
  { destruct (PeerFacts.conn_events_silent pre) as (Hr & Hc & Hd & _). auto. }
  destruct Hpre' as (Hc1 & Hr1 & Hd1).
  destruct (PeerFacts.conn_events_silent cevs) as (Hr2 & Hc2 & Hd2 & _).
  exists p2, (l1 ++ l2). split; [exact Hrun |].
  rewrite Hevs.
  unfold PeerChannel.closeCalls, PeerChannel.rejectsSent,
    PeerChannel.dispatched in *.
  rewrite !omap_app. simpl. rewrite !omap_app, Hc1, Hr1, Hd1, Hc2, Hr2, Hd2.
  simpl. split; [reflexivity |]. split; [reflexivity |]. split; [reflexivity |].
  subst p2. split; [exact Hclosed |].
  intros now' start' finish' frames. apply onFrames_not_open.
  simpl. rewrite Hclosed. discriminate.
Qed.

End WithFactory.

Lemma malformed_frame_bans_peer_witness :
  exists p' evs,
    @PeerWiring.onFrames exampleProtocol checkingFactory 7 3 8
      (fun _ => PeerChannel.Completed)
      (_sendChunked
         (spanning
            [x42; x04; x20; x42; x0a; x00; x00; x00; x0d; xff; x00; x00; x00])
         0)
      (PeerChannel.mk new) = (p', evs)
    /\ @PeerChannel.closeCalls checkingFactory evs
         = [(PeerChannel.FAILED_TO_PARSE_MESSAGE_TYPE,
             "Failed to parse message type"%string)]
    /\ @PeerChannel.rejectsSent checkingFactory evs = []
    /\ readyState (PeerChannel._conn p') = CLOSED.
Proof.
  destruct (@malformed_frame_bans_peer exampleProtocol checkingFactory 7 3 8
              (fun _ => PeerChannel.Completed)
              [x42; x04; x20; x42; x0a; x00; x00; x00; x0d; xff; x00; x00; x00]
              (Some 10) "Malformed checksum"
              (PeerChannel.mk new))
    as (p' & evs & Hrun & Hclose & Hrej & _ & Hclosed & _).
  - reflexivity.
  - reflexivity.
  - simpl. lia.
  - vm_compute. discriminate.
  - vm_compute. reflexivity.
  - vm_compute. reflexivity.
  - right. reflexivity.
  - exists p', evs. repeat split; assumption.
Defined.

End BanFacts.

(** ** After the close *)

Module CloseFacts.
Import DataChannel.
Import Session.
Import FrameFacts.

Section WithProtocol.
Context `{Protocol}.

(** X22. [_onClose] fires ['close'] once and clears every timer: on a
    channel whose transport is no longer open, no timer expires any more
    and no frame is processed, so frames and timer ticks that still arrive
    change nothing and make nothing observable. *)
Theorem nothing_happens_after_onClose (c : DataChannel.t) (ops : list Op) :
  readyState c <> OPEN ->
  Forall (fun op => match op with
                    | Deliver _ _ | Expire _ => True
                    | _ => False
                    end) ops ->
  snd (_onClose c) = [FireClose]
  /\ _timers (fst (_onClose c)) = ∅
  /\ run ops (fst (_onClose c)) = (fst (_onClose c), []).
Proof.
  intros Hclosed Hops. split; [reflexivity |]. split; [reflexivity |].
  induction Hops as [| op ops Hop Hops IH]; [reflexivity |].
  destruct op; try contradiction; simpl.
  - assert (Hdrop : _onMessage now frame (set_timers (clearAll (_timers c)) c)
                    = (set_timers (clearAll (_timers c)) c, [])).
    { unfold _onMessage. simpl.
      destruct (readyState c); try congruence; reflexivity. }
    rewrite Hdrop. simpl in IH. rewrite IH. reflexivity.
  - unfold timerExpires. simpl. unfold clearAll. rewrite lookup_empty.
    simpl in IH. unfold clearAll in IH. rewrite IH. reflexivity.
Qed.

End WithProtocol.

Lemma nothing_happens_after_onClose_witness :
  snd (_onClose (set_readyState CLOSED
                   (expectMessage (OneType 6) 0%nat None None new)))
    = [FireClose]
  /\ _timers (fst (_onClose (set_readyState CLOSED
                     (expectMessage (OneType 6) 0%nat None None new)))) = ∅
  /\ @run exampleProtocol [Expire "msg-6"; Deliver 7 [x00; x01]]
       (fst (_onClose (set_readyState CLOSED
                         (expectMessage (OneType 6) 0%nat None None new))))
     = (fst (_onClose (set_readyState CLOSED
                         (expectMessage (OneType 6) 0%nat None None new))), []).
Proof.
  apply (@nothing_happens_after_onClose exampleProtocol
           (set_readyState CLOSED
              (expectMessage (OneType 6) 0%nat None None new))
           [Expire "msg-6"; Deliver 7 [x00; x01]]).
  - simpl. discriminate.
  - repeat constructor.
Defined.

End CloseFacts.

(** ** The time of the last chunk *)

Module GetterFacts.
Import DataChannel.
Import FrameFacts.

Section WithProtocol.
Context `{Protocol}.

(** X19. [lastMessageReceivedAt] moves to the current time exactly when a
    frame is accepted into the reassembly buffer (a ['chunk'] or a
    ['message'] is fired); a frame that is dropped, logged or answered with
    ['error'] leaves it as it was. *)
Theorem last_received_tracks_accepted_chunks (now : Z) (frame : list byte)
    (c c' : DataChannel.t) (evs : list Event) :
  _onMessage now frame c = (c', evs) ->
  ((exists m, FireMessage m ∈ evs) \/ (exists b, FireChunk b ∈ evs) ->
   Getters.lastMessageReceivedAt c' = now)
  /\ ((forall m, FireMessage m ∉ evs) -> (forall b, FireChunk b ∉ evs) ->
      Getters.lastMessageReceivedAt c' = Getters.lastMessageReceivedAt c).
Proof.
  intros Hrun. revert Hrun. unfold Getters.lastMessageReceivedAt.
  follow_onMessage; intros [= <- <-]; simpl; split;
    try (intros [[x Hin] | [x Hin]];
         repeat (rewrite elem_of_cons in Hin);
         rewrite elem_of_nil in Hin;
         first [ exfalso; intuition discriminate | reflexivity ]);
    try (intros _ _; reflexivity);
    intros Hm Hb; exfalso;
    first [ eapply Hm; apply elem_of_cons; left; reflexivity
          | eapply Hb; apply elem_of_cons; left; reflexivity ].
Qed.

End WithProtocol.

Lemma last_received_tracks_accepted_chunks_witness :
  Getters.lastMessageReceivedAt
    (fst (@_onMessage exampleProtocol 7 (x00 :: exampleHeader 6 13) new)) = 7.
Proof.
  destruct (@last_received_tracks_accepted_chunks exampleProtocol 7
              (x00 :: exampleHeader 6 13) new
              (fst (@_onMessage exampleProtocol 7 (x00 :: exampleHeader 6 13) new))
              [FireMessage (exampleHeader 6 13)])
    as [Hmoved _].
  - vm_compute. reflexivity.
  - apply Hmoved. left. exists (exampleHeader 6 13).
    apply elem_of_cons. left. reflexivity.
Defined.

End GetterFacts.

(** ** The event table *)

Module EventTableFacts.
Import MessageType.

(** X20. [PeerChannel.Event] names an event for each of the 32 message
    types, no two types share a name, and no type is dispatched under
    ['message-log'], ['close'] or ['error'], the other events a
    [PeerChannel] fires. *)
Theorem event_names_are_distinct (t1 t2 : MessageType.t) (name : string) :
  eventOf t1 = Some name ->
  eventOf t2 = Some name ->
  t1 = t2
  /\ name <> "message-log"%string
  /\ name <> "close"%string
  /\ name <> "error"%string
  /\ (forall ty, exists n, eventOf ty = Some n)
  /\ length Event = 32%nat.
Proof.
  intros H1 H2.
  assert (Hinj : t1 = t2).
  { destruct t1; vm_compute in H1; injection H1 as <-;
      destruct t2; vm_compute in H2; first [reflexivity | discriminate]. }
  split; [exact Hinj |].
  split; [destruct t1; vm_compute in H1; injection H1 as <-; discriminate |].
  split; [destruct t1; vm_compute in H1; injection H1 as <-; discriminate |].
  split; [destruct t1; vm_compute in H1; injection H1 as <-; discriminate |].
  split; [| reflexivity].
  intros ty. destruct ty; eexists; vm_compute; reflexivity.
Qed.

Lemma event_names_are_distinct_witness :
  REJECT = REJECT
  /\ "reject"%string <> "message-log"%string
  /\ "reject"%string <> "close"%string
  /\ "reject"%string <> "error"%string
  /\ (forall ty, exists n, eventOf ty = Some n)
  /\ length Event = 32%nat.
Proof.
  apply (event_names_are_distinct REJECT REJECT "reject");
    vm_compute; reflexivity.
Defined.

End EventTableFacts.
